(** * lua-redis-wasm: the reply codec, the host call bridge and the guest runtime

    A shallow embedding of [wasm/include/abi.h], [wasm/src/redis_api.c] and
    [wasm/src/runtime.c].

    Conventions of the embedding.
    - A [uint8_t] is a [Byte.byte]; a buffer is a [list byte]; wider C integers
      are [Z] with the wrap-around of their width written out.  The guest is a
      wasm32 module (every pointer crosses the ABI as a [uint32_t]), so
      [size_t] is 32 bits wide.
    - [lua_Number] is an IEEE binary64 value ([PrimFloat.float]).
    - The Lua C API is rendered by its documented meaning on values: a table
      is a finite map from keys to non-nil values without a metatable (so
      [lua_getfield] is a raw lookup), [lua_error] is a non-local exit
      carrying the message, [luaL_error] puts the position information of
      [luaL_where] in front of its message first, and [malloc]/[realloc]
      are taken to succeed.
    - A read that C leaves undefined (past the end of the object read) is the
      outcome [Undefined]; nothing is proved about what follows it. *)

From Stdlib Require Import ZArith List Lia Bool String Ascii Floats.
From Stdlib.Strings Require Import Byte.
From stdpp Require Import gmap strings.
Import ListNotations.

#[local] Open Scope Z_scope.
#[local] Set Warnings "-register-all".

(** ** Bytes and fixed-width integers *)

Abbreviation bytes := (list byte).

Definition byte_to_Z (b : byte) : Z := Z.of_N (Byte.to_N b).

(** The C conversion [(uint8_t)v]. *)
Definition byte_of_Z (v : Z) : byte :=
  match Byte.of_N (Z.to_N (v mod 256)) with
  | Some b => b
  | None => "000"%byte
  end.

Definition blen (b : bytes) : Z := Z.of_nat (length b).

(** The bytes of a C identifier or message, without terminator. *)
Definition cstr (s : string) : bytes := list_byte_of_string s.

(** A string literal as the object the compiler lays out: the characters
    followed by the terminating NUL. *)
Definition literal (s : string) : bytes := cstr s ++ ["000"%byte].

Definition u32 (v : Z) : Z := v mod 2 ^ 32.
Definition u64 (v : Z) : Z := v mod 2 ^ 64.

(** [(int)v] and [(int64_t)v] for an unsigned [v]: two's complement. *)
Definition to_int32 (v : Z) : Z :=
  let m := v mod 2 ^ 32 in if m <? 2 ^ 31 then m else m - 2 ^ 32.
Definition to_int64 (v : Z) : Z :=
  let m := v mod 2 ^ 64 in if m <? 2 ^ 63 then m else m - 2 ^ 64.

(** [size_t] arithmetic of the wasm32 target. *)
Definition SIZE_BITS : Z := 32.
Definition size_add (a b : Z) : Z := (a + b) mod 2 ^ SIZE_BITS.

(** abi.h: [enum ReplyType]. *)
Definition REPLY_NULL : Z := 0.
Definition REPLY_INT : Z := 1.
Definition REPLY_BULK : Z := 2.
Definition REPLY_ARRAY : Z := 3.
Definition REPLY_STATUS : Z := 4.
Definition REPLY_ERROR : Z := 5.

(** [write_u32_le] (both translation units define it identically). *)
Definition write_u32_le (value : Z) : bytes :=
  [ byte_of_Z (Z.land value 255);
    byte_of_Z (Z.land (Z.shiftr value 8) 255);
    byte_of_Z (Z.land (Z.shiftr value 16) 255);
    byte_of_Z (Z.land (Z.shiftr value 24) 255) ].

(** runtime.c: [write_i64_le]; [uvalue = (uint64_t)value]. *)
Definition write_i64_le (value : Z) : bytes :=
  let uvalue := u64 value in
  [ byte_of_Z (Z.land uvalue 255);
    byte_of_Z (Z.land (Z.shiftr uvalue 8) 255);
    byte_of_Z (Z.land (Z.shiftr uvalue 16) 255);
    byte_of_Z (Z.land (Z.shiftr uvalue 24) 255);
    byte_of_Z (Z.land (Z.shiftr uvalue 32) 255);
    byte_of_Z (Z.land (Z.shiftr uvalue 40) 255);
    byte_of_Z (Z.land (Z.shiftr uvalue 48) 255);
    byte_of_Z (Z.land (Z.shiftr uvalue 56) 255) ].

(** redis_api.c: [read_u32_le], on the bytes found at [src]. *)
Definition read_u32_le (src : bytes) : Z :=
  match src with
  | b0 :: b1 :: b2 :: b3 :: _ =>
      Z.lor (Z.lor (Z.lor (byte_to_Z b0) (Z.shiftl (byte_to_Z b1) 8))
                   (Z.shiftl (byte_to_Z b2) 16))
            (Z.shiftl (byte_to_Z b3) 24)
  | _ => 0
  end.

(** redis_api.c: [read_i64_le]; the final cast is [(int64_t)value]. *)
Definition read_i64_le (src : bytes) : Z :=
  match src with
  | b0 :: b1 :: b2 :: b3 :: b4 :: b5 :: b6 :: b7 :: _ =>
      let value := 0 in
      let value := Z.lor value (byte_to_Z b0) in
      let value := Z.lor value (Z.shiftl (byte_to_Z b1) 8) in
      let value := Z.lor value (Z.shiftl (byte_to_Z b2) 16) in
      let value := Z.lor value (Z.shiftl (byte_to_Z b3) 24) in
      let value := Z.lor value (Z.shiftl (byte_to_Z b4) 32) in
      let value := Z.lor value (Z.shiftl (byte_to_Z b5) 40) in
      let value := Z.lor value (Z.shiftl (byte_to_Z b6) 48) in
      let value := Z.lor value (Z.shiftl (byte_to_Z b7) 56) in
      to_int64 value
  | _ => 0
  end.

(** ** Outcomes *)

Inductive error : Type :=
| Raised (msg : bytes)   (* lua_error: a script error with this message *)
| Failure                (* the C function returned -1 *)
| Undefined              (* a read or conversion that C leaves undefined *)
| Hangs                  (* the call never returns *)
| OutOfFuel.             (* the recursion bound of the model was reached *)

Inductive result (A : Type) : Type :=
| Ok (a : A)
| Err (e : error).
Arguments Ok {A} a.
Arguments Err {A} e.

Definition bind {A B} (m : result A) (k : A -> result B) : result B :=
  match m with
  | Ok a => k a
  | Err e => Err e
  end.

Notation "x <- m ;; k" := (bind m (fun x => k))
  (at level 100, m at next level, right associativity).

(** [n] bytes of the object [obj] starting [off] bytes into it. *)
Definition load (obj : bytes) (off n : Z) : result bytes :=
  if (0 <=? off) && (0 <=? n) && (off + n <=? blen obj)
  then Ok (firstn (Z.to_nat n) (skipn (Z.to_nat off) obj))
  else Err Undefined.

Definition load8 (obj : bytes) (off : Z) : result Z :=
  b <- load obj off 1 ;;
  match b with
  | x :: _ => Ok (byte_to_Z x)
  | [] => Err Undefined
  end.

(** ** Script values *)

Abbreviation lua_Number := float.

Inductive LuaValue : Type :=
| LNil
| LBoolean (b : bool)
| LNumber (n : lua_Number)
| LString (s : bytes)
| LTable (t : gmap (Z + string) LuaValue)
| LFunction (name : string)      (* a C function or closure, opaque *)
| LUserdata (id : Z).            (* userdata, threads: opaque *)

Abbreviation table := (gmap (Z + string) LuaValue).

(** [(lua_Number)value] for a 64-bit integer: round to nearest, ties to even. *)
Definition lua_Number_of_int (value : Z) : lua_Number :=
  SF2Prim (binary_normalize prec emax value 0 false).

(** [(int64_t)num]: truncation toward zero; C leaves the conversion undefined
    when the truncated value is not an [int64_t] (also for NaN, infinities). *)
Definition int64_of_lua_Number (num : lua_Number) : option Z :=
  match Prim2SF num with
  | S754_zero _ => Some 0
  | S754_finite s m e =>
      let mag := if 0 <=? e then Z.shiftl (Z.pos m) e else Z.shiftr (Z.pos m) (- e) in
      let t := if s then - mag else mag in
      if (- 2 ^ 63 <=? t) && (t <? 2 ^ 63) then Some t else None
  | _ => None
  end.

Definition is_nil (v : LuaValue) : bool :=
  match v with LNil => true | _ => false end.

(** Table access.  A nil value is never stored: assigning nil removes the key. *)
Definition lua_rawget (t : table) (k : Z + string) : LuaValue :=
  default LNil (t !! k).
Definition lua_rawset (t : table) (k : Z + string) (v : LuaValue) : table :=
  if is_nil v then delete k t else <[k := v]> t.
Definition lua_rawgeti (t : table) (n : Z) : LuaValue := lua_rawget t (inl n).
Definition lua_rawseti (t : table) (n : Z) (v : LuaValue) : table := lua_rawset t (inl n) v.
Definition lua_getfield (t : table) (k : string) : LuaValue := lua_rawget t (inr k).
Definition lua_setfield (t : table) (k : string) (v : LuaValue) : table := lua_rawset t (inr k) v.

(** [lua_objlen] on a table: a border [n] ([t[n]] non-nil or [n = 0], and
    [t[n+1]] nil).  The model returns the first one, which is the length of
    the table when it is a sequence; for a table with holes Lua may return
    any border. *)
Fixpoint first_border (t : table) (fuel : nat) (n : Z) : Z :=
  match fuel with
  | O => n
  | S fuel' => if is_nil (lua_rawgeti t (n + 1)) then n else first_border t fuel' (n + 1)
  end.
Definition lua_objlen (t : table) : Z := first_border t (size t) 0.

(** A bound on the calls and loop iterations a traversal of a value takes. *)
Fixpoint value_weight (v : LuaValue) : nat :=
  match v with
  | LTable t => 3 + map_fold (fun _ c acc => (S (value_weight c) + acc)%nat) 0%nat t
  | _ => 1
  end.

(** [lua_isstring]: true for strings and for numbers. *)
Definition lua_isstring (v : LuaValue) : bool :=
  match v with LString _ | LNumber _ => true | _ => false end.

(** ** redis_api.c: decoding a host reply into script values *)

Section Interpreter.

(** The position information [luaL_where(L, 1)] reads from the call stack
    where an error is raised: empty, or the chunk name and the current line
    of the calling function, as in [user_script:1: ]. *)
Variable luaL_where : bytes.

(** [luaL_error(L, msg)]: a script error whose message is [msg] behind that
    position information. *)
Definition luaL_error {A} (msg : string) : result A :=
  Err (Raised (luaL_where ++ cstr msg)).

Definition push_status_table (data : bytes) : LuaValue :=
  LTable (lua_setfield ∅ "ok" (LString data)).

Definition push_error_table (data : bytes) : LuaValue :=
  LTable (lua_setfield ∅ "err" (LString data)).

(** [decode_reply] and the loop of its [REPLY_ARRAY] case.  [buf] holds the
    [len] bytes of the reply; the result is the value pushed and the new
    [*offset].  Every call and every loop iteration takes one unit of fuel. *)
Fixpoint decode_reply (fuel : nat) (buf : bytes) (offset : Z) (raise_on_error : bool)
  {struct fuel} : result (LuaValue * Z) :=
  match fuel with
  | O => Err OutOfFuel
  | S fuel' =>
      let len := blen buf in
      if len <? size_add offset 5 then luaL_error "ERR reply decoding failed" else
      type <- load8 buf offset ;;
      hdr <- load buf (offset + 1) 4 ;;
      let count_or_len := read_u32_le hdr in
      let offset := size_add offset 5 in
      if type =? REPLY_NULL then Ok (LNil, offset)
      else if type =? REPLY_INT then
        if len <? size_add offset 8 then luaL_error "ERR reply decoding failed" else
        p <- load buf offset 8 ;;
        let value := read_i64_le p in
        Ok (LNumber (lua_Number_of_int value), size_add offset 8)
      else if type =? REPLY_BULK then
        if len <? size_add offset count_or_len then luaL_error "ERR reply decoding failed" else
        s <- load buf offset count_or_len ;;
        Ok (LString s, size_add offset count_or_len)
      else if type =? REPLY_STATUS then
        if len <? size_add offset count_or_len then luaL_error "ERR reply decoding failed" else
        s <- load buf offset count_or_len ;;
        Ok (push_status_table s, size_add offset count_or_len)
      else if type =? REPLY_ERROR then
        if len <? size_add offset count_or_len then luaL_error "ERR reply decoding failed" else
        s <- load buf offset count_or_len ;;
        if raise_on_error then Err (Raised s)
        else Ok (push_error_table s, size_add offset count_or_len)
      else if type =? REPLY_ARRAY then
        decode_array fuel' buf raise_on_error 1 count_or_len ∅ offset
      else luaL_error "ERR unknown reply type"
  end
with decode_array (fuel : nat) (buf : bytes) (raise_on_error : bool)
  (i count_or_len : Z) (t : table) (offset : Z) {struct fuel} : result (LuaValue * Z) :=
  match fuel with
  | O => Err OutOfFuel
  | S fuel' =>
      if i <=? count_or_len then
        match decode_reply fuel' buf offset raise_on_error with
        | Ok (v, offset') =>
            decode_array fuel' buf raise_on_error (u32 (i + 1)) count_or_len
              (lua_rawseti t (to_int32 i) v) offset'
        | Err e => Err e
        end
      else Ok (LTable t, offset)
  end.

(** The interpreter's conversion of a number to its canonical string form
    ([lua_tolstring] on a number, [LUAI_NUMFFORMAT]). *)
Variable lua_number2str : lua_Number -> bytes.

(** [lua_tolstring]: the bytes of a string, the canonical form of a number,
    [NULL] otherwise. *)
Definition lua_tolstring (v : LuaValue) : option bytes :=
  match v with
  | LString s => Some s
  | LNumber n => Some (lua_number2str n)
  | _ => None
  end.

(** ** runtime.c: the reply buffer and the encoder *)

(** [rb_append]: [len] bytes read from the object at [data] are appended
    ([rb_reserve] grows the buffer; allocation is taken to succeed). *)
Definition rb_append (rb : bytes) (data : bytes) (len : Z) : result bytes :=
  d <- load data 0 len ;; Ok (rb ++ d).

Definition rb_write_header (rb : bytes) (type : Z) (count_or_len : Z) : result bytes :=
  let header := byte_of_Z type :: write_u32_le count_or_len in
  rb_append rb header 5.

Fixpoint encode_lua_value (fuel : nat) (v : LuaValue) (rb : bytes) {struct fuel}
  : result bytes :=
  match fuel with
  | O => Err OutOfFuel
  | S fuel' =>
      match v with
      | LNil => rb_write_header rb REPLY_NULL 0
      | LNumber num =>
          match int64_of_lua_Number num with
          | None => Err Undefined
          | Some truncated =>
              let int_part := lua_Number_of_int truncated in
              if PrimFloat.eqb num int_part then
                rb <- rb_write_header rb REPLY_INT 8 ;;
                rb_append rb (write_i64_le truncated) 8
              else
                let str := lua_number2str num in
                rb <- rb_write_header rb REPLY_BULK (u32 (blen str)) ;;
                rb_append rb str (blen str)
          end
      | LBoolean b =>
          if b then
            rb <- rb_write_header rb REPLY_INT 8 ;;
            rb_append rb (write_i64_le 1) 8
          else rb_write_header rb REPLY_NULL 0
      | LString str =>
          rb <- rb_write_header rb REPLY_BULK (u32 (blen str)) ;;
          rb_append rb str (blen str)
      | LTable t => encode_table fuel' t rb
      | _ => Err Failure
      end
  end
with encode_table (fuel : nat) (t : table) (rb : bytes) {struct fuel} : result bytes :=
  match fuel with
  | O => Err OutOfFuel
  | S fuel' =>
      let field_ok := lua_getfield t "ok" in
      let has_ok := lua_isstring field_ok in
      let field_err := lua_getfield t "err" in
      let has_err := negb has_ok && lua_isstring field_err in
      let msg :=
        if has_ok then default [] (lua_tolstring field_ok)
        else if has_err then default [] (lua_tolstring field_err)
        else [] in
      if has_ok then
        rb <- rb_write_header rb REPLY_STATUS (u32 (blen msg)) ;;
        rb_append rb msg (blen msg)
      else if has_err then
        rb <- rb_write_header rb REPLY_ERROR (u32 (blen msg)) ;;
        rb_append rb msg (blen msg)
      else
        let count := lua_objlen t in
        rb <- rb_write_header rb REPLY_ARRAY (u32 count) ;;
        encode_items fuel' t 1 count rb
  end
with encode_items (fuel : nat) (t : table) (i count : Z) (rb : bytes) {struct fuel}
  : result bytes :=
  match fuel with
  | O => Err OutOfFuel
  | S fuel' =>
      if i <=? count then
        rb <- encode_lua_value fuel' (lua_rawgeti t (to_int32 i)) rb ;;
        encode_items fuel' t (size_add i 1) count rb
      else Ok rb
  end.


(** ** redis_api.c: the bridge functions scripts call *)

(** abi.h: [PtrLen], with the bytes found at [ptr]: [(0, 0)] or any pair
    whose [ptr] is null is [NoBuffer]; otherwise [len] is the length of
    [data]. *)
Inductive PtrLen : Type :=
| NoBuffer
| Buffer (data : bytes).

(** The host imports [host_redis_call] and [host_redis_pcall]: from the
    request frame to the reply they leave in guest memory. *)
Variable host_redis_call : bytes -> PtrLen.
Variable host_redis_pcall : bytes -> PtrLen.

(** [ab_init]: the frame starts with the item count. *)
Definition ab_init (count : Z) : bytes := write_u32_le count.

Definition ab_append (ab : bytes) (data : bytes) : bytes := ab ++ data.

Definition ab_append_string (ab : bytes) (str : bytes) : bytes :=
  let header := write_u32_le (u32 (blen str)) in
  ab_append (ab_append ab header) str.

Definition arg_to_bytes (v : LuaValue) : result bytes :=
  match v with
  | LString _ | LNumber _ =>
      match lua_tolstring v with Some s => Ok s | None => Err Failure end
  | LBoolean b => if b then Ok (cstr "1") else Ok (cstr "0")
  | _ => Err Failure
  end.

Fixpoint encode_args_loop (args : list LuaValue) (ab : bytes) : result bytes :=
  match args with
  | [] => Ok ab
  | a :: rest =>
      data <- arg_to_bytes a ;;
      encode_args_loop rest (ab_append_string ab data)
  end.

Definition encode_args (args : list LuaValue) : result bytes :=
  encode_args_loop args (ab_init (u32 (Z.of_nat (length args)))).

(** Fuel that lets [decode_reply] finish on any buffer: a call or a loop
    iteration that does not end the decoding has consumed a header. *)
Definition decode_fuel (buf : bytes) : nat := 3 + length buf.

(** [redis_call_common] on the arguments [args] of the script call. *)
Definition redis_call_common (args : list LuaValue) (raise_on_error : bool)
  : result LuaValue :=
  let argc := Z.of_nat (length args) in
  if argc =? 0 then luaL_error "ERR redis.call requires arguments" else
  match encode_args args with
  | Err _ => luaL_error "ERR invalid argument to redis.call"
  | Ok ab =>
      let reply := if raise_on_error then host_redis_call ab else host_redis_pcall ab in
      match reply with
      | NoBuffer | Buffer [] => luaL_error "ERR empty reply from host"
      | Buffer buf =>
          r <- decode_reply (decode_fuel buf) buf 0 raise_on_error ;;
          Ok (fst r)
      end
  end.

Definition l_redis_call (args : list LuaValue) : result LuaValue :=
  redis_call_common args true.

Definition l_redis_pcall (args : list LuaValue) : result LuaValue :=
  redis_call_common args false.

(** ** The interpreter and the module's static variables *)

(** A Lua state as the runtime uses it: the table of globals and the period
    of the count hook installed by [lua_sethook] (0: no hook). *)
Record lua_State : Type := {
  globals : gmap string LuaValue;
  hookcount : Z
}.

Definition lua_getglobal (L : lua_State) (name : string) : LuaValue :=
  default LNil (globals L !! name).

Definition lua_setglobal (L : lua_State) (name : string) (v : LuaValue) : lua_State :=
  {| globals := if is_nil v then delete name (globals L) else <[name := v]> (globals L);
     hookcount := hookcount L |}.

Definition lua_sethook (L : lua_State) (count : Z) : lua_State :=
  {| globals := globals L; hookcount := count |}.

(** [luaL_newstate] when the allocation succeeds. *)
Definition luaL_newstate : lua_State := {| globals := ∅; hookcount := 0 |}.

Definition DEFAULT_FUEL_LIMIT : Z := 10000000.
Definition FUEL_HOOK_STEP : Z := 1000.

(** The static variables of runtime.c and, last, of redis_api.c. *)
Record Statics : Type := {
  g_state : option lua_State;
  g_fuel_remaining : Z;
  g_fuel_limit : Z;
  g_max_reply_bytes : Z;
  g_max_arg_bytes : Z;
  g_resp_version : Z
}.

(** Their values when the module is instantiated. *)
Definition module_start : Statics :=
  {| g_state := None;
     g_fuel_remaining := DEFAULT_FUEL_LIMIT;
     g_fuel_limit := DEFAULT_FUEL_LIMIT;
     g_max_reply_bytes := 0;
     g_max_arg_bytes := 0;
     g_resp_version := 2 |}.

Definition with_state (st : Statics) (L : option lua_State) : Statics :=
  {| g_state := L;
     g_fuel_remaining := g_fuel_remaining st;
     g_fuel_limit := g_fuel_limit st;
     g_max_reply_bytes := g_max_reply_bytes st;
     g_max_arg_bytes := g_max_arg_bytes st;
     g_resp_version := g_resp_version st |}.

Definition with_fuel_remaining (st : Statics) (fuel : Z) : Statics :=
  {| g_state := g_state st;
     g_fuel_remaining := fuel;
     g_fuel_limit := g_fuel_limit st;
     g_max_reply_bytes := g_max_reply_bytes st;
     g_max_arg_bytes := g_max_arg_bytes st;
     g_resp_version := g_resp_version st |}.

(** ** redis_api.c: [setresp] and the registration of the API *)

(** [lua_Integer] is [ptrdiff_t], 32 bits on the target: the conversion of a
    number is its truncation, undefined outside that range. *)
Definition lua_Integer_of_lua_Number (num : lua_Number) : option Z :=
  match int64_of_lua_Number num with
  | Some t => if (- 2 ^ 31 <=? t) && (t <? 2 ^ 31) then Some t else None
  | None => None
  end.

(** The interpreter's reading of a string as a number ([lua_isnumber],
    [lua_tonumber] on a string). *)
Variable lua_str2number : bytes -> option lua_Number.

Definition lua_tonumber (v : LuaValue) : option lua_Number :=
  match v with
  | LNumber n => Some n
  | LString s => lua_str2number s
  | _ => None
  end.

(** [luaL_checkinteger] on argument [narg] of the call: a script error when
    the argument is not a number (the interpreter words the message). *)
Definition luaL_checkinteger (args : list LuaValue) (narg : nat) : result Z :=
  match lua_tonumber (nth (narg - 1) args LNil) with
  | None => luaL_error "bad argument (number expected)"
  | Some n =>
      match lua_Integer_of_lua_Number n with
      | Some d => Ok d
      | None => Err Undefined
      end
  end.

(** [l_redis_setresp]: the statics after the call and the value returned.
    A script error leaves the statics as they were. *)
Definition l_redis_setresp (st : Statics) (args : list LuaValue)
  : Statics * result LuaValue :=
  let prev := g_resp_version st in
  match luaL_checkinteger args 1 with
  | Err e => (st, Err e)
  | Ok d =>
      ({| g_state := g_state st;
          g_fuel_remaining := g_fuel_remaining st;
          g_fuel_limit := g_fuel_limit st;
          g_max_reply_bytes := g_max_reply_bytes st;
          g_max_arg_bytes := g_max_arg_bytes st;
          g_resp_version := u32 d |},
       Ok (LNumber (lua_Number_of_int prev)))
  end.

(** [luaL_checklstring] on argument [narg] of the call: the bytes of a
    string, the string form of a number, and a script error for any other
    value (the interpreter words the message). *)
Definition luaL_checklstring (args : list LuaValue) (narg : nat) : result bytes :=
  match lua_tolstring (nth (narg - 1) args LNil) with
  | Some s => Ok s
  | None => luaL_error "bad argument (string expected)"
  end.

Definition l_redis_error_reply (args : list LuaValue) : result LuaValue :=
  msg <- luaL_checklstring args 1 ;;
  Ok (push_error_table msg).

Definition l_redis_status_reply (args : list LuaValue) : result LuaValue :=
  msg <- luaL_checklstring args 1 ;;
  Ok (push_status_table msg).

Definition LOG_DEBUG : Z := 0.
Definition LOG_VERBOSE : Z := 1.
Definition LOG_NOTICE : Z := 2.
Definition LOG_WARNING : Z := 3.

Definition set_log_constants (t : table) : table :=
  let t := lua_setfield t "LOG_DEBUG" (LNumber (lua_Number_of_int LOG_DEBUG)) in
  let t := lua_setfield t "LOG_VERBOSE" (LNumber (lua_Number_of_int LOG_VERBOSE)) in
  let t := lua_setfield t "LOG_NOTICE" (LNumber (lua_Number_of_int LOG_NOTICE)) in
  lua_setfield t "LOG_WARNING" (LNumber (lua_Number_of_int LOG_WARNING)).

Definition register_redis_api (L : lua_State) : lua_State :=
  let t : table := ∅ in
  let t := lua_setfield t "call" (LFunction "l_redis_call") in
  let t := lua_setfield t "pcall" (LFunction "l_redis_pcall") in
  let t := lua_setfield t "log" (LFunction "l_redis_log") in
  let t := lua_setfield t "sha1hex" (LFunction "l_redis_sha1hex") in
  let t := lua_setfield t "error_reply" (LFunction "l_redis_error_reply") in
  let t := lua_setfield t "status_reply" (LFunction "l_redis_status_reply") in
  let t := lua_setfield t "setresp" (LFunction "l_redis_setresp") in
  let t := set_log_constants t in
  lua_setglobal L "redis" (LTable t).

(** ** runtime.c: the sandbox *)

Definition remove_global (L : lua_State) (name : string) : lua_State :=
  lua_setglobal L name LNil.

(** [remove_package_entry]: [package.loaded[name] = nil] when both tables
    exist.  The table reached through the global is the table itself, so the
    assignment is written back into the global. *)
Definition remove_package_entry (L : lua_State) (name : string) : lua_State :=
  match lua_getglobal L "package" with
  | LTable package =>
      match lua_getfield package "loaded" with
      | LTable loaded =>
          let loaded := lua_setfield loaded name LNil in
          lua_setglobal L "package" (LTable (lua_setfield package "loaded" (LTable loaded)))
      | _ => L
      end
  | _ => L
  end.

Definition disable_non_determinism (L : lua_State) : lua_State :=
  let L := remove_global L "io" in
  let L := remove_global L "os" in
  let L := remove_global L "debug" in
  let L := remove_global L "package" in
  let L := remove_global L "require" in
  let L := remove_global L "dofile" in
  let L := remove_global L "loadfile" in
  let L := remove_package_entry L "io" in
  let L := remove_package_entry L "os" in
  let L := remove_package_entry L "debug" in
  let L := remove_package_entry L "package" in
  match lua_getglobal L "math" with
  | LTable math =>
      let math := lua_setfield math "random" LNil in
      let math := lua_setfield math "randomseed" LNil in
      lua_setglobal L "math" (LTable math)
  | _ => L
  end.

(** What the library openers register.  Their code is the interpreter's and
    the auxiliary libraries': the globals the base library defines and the
    contents of each library table are left open. *)
Variable base_globals : gmap string LuaValue.
Variables table_lib string_lib math_lib : table.
Variables cjson_lib struct_lib cmsgpack_lib bit_lib : table.

(** Modelled from the spec: the openers of the baseline libraries (core,
    table, string and math operations), which are not among the sources.
    The base library defines global functions; each of the others binds its
    table to the global of its name. *)
Definition luaopen_base (L : lua_State) : lua_State :=
  {| globals := base_globals ∪ globals L; hookcount := hookcount L |}.
Definition luaopen_table (L : lua_State) : lua_State := lua_setglobal L "table" (LTable table_lib).
Definition luaopen_string (L : lua_State) : lua_State := lua_setglobal L "string" (LTable string_lib).
Definition luaopen_math (L : lua_State) : lua_State := lua_setglobal L "math" (LTable math_lib).

(** Modelled from the spec: the openers of the four auxiliary libraries
    (JSON codec, pack/unpack, message-pack codec, bit operations), which are
    not among the sources; each registers its table as the global of its
    name. *)
Definition luaopen_cjson (L : lua_State) : lua_State := lua_setglobal L "cjson" (LTable cjson_lib).
Definition luaopen_struct (L : lua_State) : lua_State := lua_setglobal L "struct" (LTable struct_lib).
Definition luaopen_cmsgpack (L : lua_State) : lua_State := lua_setglobal L "cmsgpack" (LTable cmsgpack_lib).
Definition luaopen_bit (L : lua_State) : lua_State := lua_setglobal L "bit" (LTable bit_lib).

(** [luaLoadLib] calls the opener with the library name and drops its results. *)
Definition luaLoadLib (L : lua_State) (name : string) (func : lua_State -> lua_State)
  : lua_State := func L.

Definition load_redis_modules (L : lua_State) : lua_State :=
  let L := luaLoadLib L "cjson" luaopen_cjson in
  let L := luaLoadLib L "struct" luaopen_struct in
  let L := luaLoadLib L "cmsgpack" luaopen_cmsgpack in
  luaLoadLib L "bit" luaopen_bit.

Definition open_allowed_libs (L : lua_State) : lua_State :=
  let L := luaopen_base L in
  let L := luaopen_table L in
  let L := luaopen_string L in
  let L := luaopen_math L in
  let L := disable_non_determinism L in
  load_redis_modules L.

(** ** runtime.c: fuel and limits *)

(** [fuel_hook]: the statics after the call, and the script error if raised. *)
Definition fuel_hook (st : Statics) : Statics * result unit :=
  let st := with_fuel_remaining st (g_fuel_remaining st - FUEL_HOOK_STEP) in
  if g_fuel_remaining st <=? 0
  then (st, luaL_error "Script killed by fuel limit")
  else (st, Ok tt).

Definition reset_fuel (st : Statics) : Statics :=
  with_fuel_remaining st (g_fuel_limit st).

Definition set_limits (st : Statics) (max_fuel max_reply_bytes max_arg_bytes : Z) : Statics :=
  {| g_state := g_state st;
     g_fuel_remaining := g_fuel_remaining st;
     g_fuel_limit := if 0 <? max_fuel then max_fuel else g_fuel_limit st;
     g_max_reply_bytes := max_reply_bytes;
     g_max_arg_bytes := max_arg_bytes;
     g_resp_version := g_resp_version st |}.

(** ** runtime.c: lifecycle *)

(** [init]; [newstate_ok] tells whether [luaL_newstate] returns a state. *)
Definition init (st : Statics) (newstate_ok : bool) : Statics * Z :=
  let st := with_state st None in
  if negb newstate_ok then (st, -1) else
  let L := luaL_newstate in
  let L := open_allowed_libs L in
  let L := register_redis_api L in
  let L := lua_sethook L FUEL_HOOK_STEP in
  (reset_fuel (with_state st (Some L)), 0).

Definition reset (st : Statics) (newstate_ok : bool) : Statics * Z :=
  match g_state st with
  | None => (st, -1)
  | Some _ =>
      if negb newstate_ok then (with_state st None, -1) else
      let L := luaL_newstate in
      let L := open_allowed_libs L in
      let L := register_redis_api L in
      let L := lua_sethook L FUEL_HOOK_STEP in
      (reset_fuel (with_state st (Some L)), 0)
  end.

(** ** The interpreter running a script *)

(** How a chunk ends when nothing stops it: the values it leaves on the
    stack, or the error value it raises. *)
Inductive Ending : Type :=
| Returns (stack : list LuaValue)
| Throws (err : LuaValue).

(** What the interpreter does with a chunk, as far as the runtime can tell:
    it ends after executing some number of VM instructions, or it goes on
    executing instructions for ever. *)
Inductive Behaviour : Type :=
| Ends (instructions : Z) (ending : Ending)
| RunsForever.

(** [luaL_loadbuffer]: the chunk, run in a given Lua state, or the error
    value of a failed load. *)
Inductive Loaded : Type :=
| Chunk (run : lua_State -> Behaviour)
| LoadError (err : LuaValue).

Variable luaL_loadbuffer : bytes -> Loaded.

(** The count hook is called each time [hookcount] more instructions have
    been executed.  [run_hooks n] performs the next [n] calls of [fuel_hook],
    stopping at the first that raises. *)
Fixpoint run_hooks (n : nat) (st : Statics) : Statics * result unit :=
  match n with
  | O => (st, Ok tt)
  | S n' =>
      match fuel_hook st with
      | (st', Ok _) => run_hooks n' st'
      | (st', Err e) => (st', Err e)
      end
  end.

(** A number of calls by which [fuel_hook] has raised. *)
Definition exhausting_calls (st : Statics) : nat :=
  S (Z.to_nat (g_fuel_remaining st / FUEL_HOOK_STEP)).

(** [lua_pcall(L, 0, LUA_MULTRET, 0)] on a loaded chunk.  A chunk that ends
    after [n] instructions has the hook called [n / hookcount] times; an
    error raised by the hook ends the chunk with that error, otherwise it
    ends as it would on its own.  A chunk that runs for ever has the hook
    called again and again: it ends when the hook raises, and the call never
    returns when there is no hook. *)
Definition lua_pcall (L : lua_State) (b : Behaviour) (st : Statics)
  : Statics * result Ending :=
  match b with
  | Ends n e =>
      let calls := if hookcount L <=? 0 then 0%nat else Z.to_nat (n / hookcount L) in
      match run_hooks calls st with
      | (st', Err (Raised msg)) => (st', Ok (Throws (LString msg)))
      | (st', _) => (st', Ok e)
      end
  | RunsForever =>
      if hookcount L <=? 0 then (st, Err Hangs) else
      match run_hooks (exhausting_calls st) st with
      | (st', Err (Raised msg)) => (st', Ok (Throws (LString msg)))
      | (st', _) => (st', Err Hangs)
      end
  end.

(** ** runtime.c: replies and entry points *)

Definition rb_init : bytes := [].

(** [rb_finalize]: the copy handed to the host, or [(0, 0)]. *)
Definition rb_finalize (rb : bytes) : PtrLen :=
  match rb with
  | [] => NoBuffer
  | _ => Buffer rb
  end.

(** [reply_error(msg, len)]: [msg] is the object the pointer designates. *)
Definition reply_error (msg : bytes) (len : Z) : result PtrLen :=
  let rb := rb_init in
  rb <- rb_write_header rb REPLY_ERROR (u32 len) ;;
  rb <- rb_append rb msg len ;;
  Ok (rb_finalize rb).

Definition reply_status (msg : bytes) (len : Z) : result PtrLen :=
  let rb := rb_init in
  rb <- rb_write_header rb REPLY_STATUS (u32 len) ;;
  rb <- rb_append rb msg len ;;
  Ok (rb_finalize rb).

(** [reply_error(err ? err : dflt, err ? err_len : dflt_len)] with
    [err = lua_tolstring(g_state, -1, &err_len)]. *)
Definition reply_error_value (err : LuaValue) (dflt : string) (dflt_len : Z)
  : result PtrLen :=
  match lua_tolstring err with
  | Some msg => reply_error (msg ++ ["000"%byte]) (blen msg)
  | None => reply_error (literal dflt) dflt_len
  end.

(** Fuel that lets the encoder finish on the value it is given: every call
    and every loop iteration of the encoder is paid for by a node or an
    entry of the value. *)
Definition encode_fuel (v : LuaValue) : nat := value_weight v.

(** The lines [eval] and [eval_with_args] share, from [luaL_loadbuffer] on. *)
Definition load_and_run (st : Statics) (L : lua_State) (script : bytes) : result PtrLen :=
  match luaL_loadbuffer script with
  | LoadError err => reply_error_value err "ERR script load failed" 23
  | Chunk run =>
      match lua_pcall L (run L) st with
      | (_, Err e) => Err e
      | (_, Ok (Throws err)) => reply_error_value err "ERR script execution failed" 28
      | (st, Ok (Returns stack)) =>
          match rev stack with
          | [] => reply_status (literal "OK") 2
          | top :: _ =>
              match encode_lua_value (encode_fuel top) top rb_init with
              | Err Failure => reply_error (literal "ERR unsupported Lua return type") 32
              | Err e => Err e
              | Ok rb =>
                  if (0 <? g_max_reply_bytes st) && (g_max_reply_bytes st <? blen rb)
                  then reply_error (literal "ERR reply exceeds configured limit") 34
                  else
                    match rb_finalize rb with
                    | NoBuffer => reply_error (literal "ERR reply encoding failed") 26
                    | out => Ok out
                    end
              end
          end
      end
  end.

Definition set_empty_keys_argv (L : lua_State) : lua_State :=
  let L := lua_setglobal L "KEYS" (LTable ∅) in
  lua_setglobal L "ARGV" (LTable ∅).

(** [eval(ptr, len)]: [script] is the [len] bytes at [ptr]. *)
Definition eval (st : Statics) (script : bytes) : result PtrLen :=
  match g_state st with
  | None => reply_error (literal "ERR Lua VM not initialized") 26
  | Some L =>
      let st := reset_fuel st in
      let L := set_empty_keys_argv L in
      load_and_run st L script
  end.

(** The loop of [set_keys_argv]; [todo] iterations remain. *)
Fixpoint set_keys_argv_loop (todo : nat) (buf : bytes) (i keys_count offset : Z)
  (keys argv : table) : result (table * table) :=
  match todo with
  | O => Ok (keys, argv)
  | S todo' =>
      let len := blen buf in
      if len <? size_add offset 4 then Err Failure else
      hdr <- load buf offset 4 ;;
      let item_len := read_u32_le hdr in
      let offset := size_add offset 4 in
      if len <? size_add offset item_len then Err Failure else
      item <- load buf offset item_len ;;
      let keys' := if i <? keys_count
                   then lua_rawseti keys (to_int32 i + 1) (LString item) else keys in
      let argv' := if i <? keys_count then argv
                   else lua_rawseti argv (to_int32 (u32 (i - keys_count)) + 1) (LString item) in
      set_keys_argv_loop todo' buf (u32 (i + 1)) keys_count (size_add offset item_len)
        keys' argv'
  end.

(** [set_keys_argv(L, buf, len, keys_count)]: [buf] is the [len] bytes of
    the argument frame. *)
Definition set_keys_argv (L : lua_State) (buf : bytes) (keys_count : Z) : result lua_State :=
  let len := blen buf in
  if len <? 4 then Err Failure else
  hdr <- load buf 0 4 ;;
  let count := read_u32_le hdr in
  if count <? keys_count then Err Failure else
  r <- set_keys_argv_loop (Z.to_nat count) buf 0 keys_count 4 ∅ ∅ ;;
  let L := lua_setglobal L "ARGV" (LTable (snd r)) in
  Ok (lua_setglobal L "KEYS" (LTable (fst r))).

(** [eval_with_args(script_ptr, script_len, args_ptr, args_len, keys_count)]:
    [script] and [args] are the bytes at the two pointers. *)
Definition eval_with_args (st : Statics) (script args : bytes) (keys_count : Z)
  : result PtrLen :=
  match g_state st with
  | None => reply_error (literal "ERR Lua VM not initialized") 26
  | Some L =>
      let st := reset_fuel st in
      let args_len := blen args in
      if (0 <? g_max_arg_bytes st) && (g_max_arg_bytes st <? args_len)
      then reply_error (literal "ERR KEYS/ARGV exceeds configured limit") 40
      else
        match set_keys_argv L args keys_count with
        | Err Failure => reply_error (literal "ERR invalid KEYS/ARGV encoding") 31
        | Err e => Err e
        | Ok L => load_and_run st L script
        end
  end.

End Interpreter.

(** ** runtime.c: the reply buffer with its capacity *)

Module Capacity.

(** [ReplyBuffer]: the [len] bytes written so far and the capacity [cap] of
    the allocation ([data] is [NULL] when [cap] is 0). *)
Record ReplyBuffer : Type := {
  data : bytes;
  cap : Z
}.

Definition len (rb : ReplyBuffer) : Z := blen (data rb).

Definition rb_init : ReplyBuffer := {| data := []; cap := 0 |}.

(** The loop [while (new_cap < needed) new_cap *= 2] of [rb_reserve], in
    [size_t] arithmetic; one unit of fuel per test of the condition. *)
Fixpoint rb_reserve_loop (fuel : nat) (new_cap needed : Z) : result Z :=
  match fuel with
  | O => Err OutOfFuel
  | S fuel' =>
      if new_cap <? needed
      then rb_reserve_loop fuel' ((new_cap * 2) mod 2 ^ SIZE_BITS) needed
      else Ok new_cap
  end.

(** [rb_reserve]; [realloc] is taken to succeed. *)
Definition rb_reserve (fuel : nat) (rb : ReplyBuffer) (extra : Z) : result ReplyBuffer :=
  let needed := size_add (len rb) extra in
  if needed <=? cap rb then Ok rb else
  let new_cap := if cap rb =? 0 then 256 else cap rb in
  new_cap <- rb_reserve_loop fuel new_cap needed ;;
  Ok {| data := data rb; cap := new_cap |}.

(** [rb_append]: the [memcpy] of [n] bytes to [data + len] stays inside the
    allocation only when [len + n <= cap]. *)
Definition rb_append (fuel : nat) (rb : ReplyBuffer) (src : bytes) (n : Z)
  : result ReplyBuffer :=
  rb <- rb_reserve fuel rb n ;;
  if cap rb <? len rb + n then Err Undefined else
  d <- load src 0 n ;;
  Ok {| data := data rb ++ d; cap := cap rb |}.

Definition rb_write_header (fuel : nat) (rb : ReplyBuffer) (type count_or_len : Z)
  : result ReplyBuffer :=
  let header := byte_of_Z type :: write_u32_le count_or_len in
  rb_append fuel rb header 5.

End Capacity.


(** ** The reply data model and its wire format *)

(** A reply as the host and the guest exchange it (abi.h: [ReplyType]). *)
Inductive Reply : Type :=
| RNull
| RInt (value : Z)
| RBulk (data : bytes)
| RArray (items : list Reply)
| RStatus (data : bytes)
| RError (data : bytes).

(** The five header bytes [rb_write_header] emits. *)
Definition header (type count_or_len : Z) : bytes :=
  byte_of_Z type :: write_u32_le count_or_len.

(** The frame of a reply: header, then the payload of its kind; an array is
    followed by the frames of its items. *)
Fixpoint frame (v : Reply) : bytes :=
  match v with
  | RNull => header REPLY_NULL 0
  | RInt value => header REPLY_INT 8 ++ write_i64_le value
  | RBulk data => header REPLY_BULK (u32 (blen data)) ++ data
  | RArray items =>
      header REPLY_ARRAY (u32 (Z.of_nat (length items))) ++ concat (map frame items)
  | RStatus data => header REPLY_STATUS (u32 (blen data)) ++ data
  | RError data => header REPLY_ERROR (u32 (blen data)) ++ data
  end.

(** The table [lua_rawseti] builds from values stored at [i], [i+1], ... *)
Fixpoint seq_table (t : table) (i : Z) (vs : list LuaValue) : table :=
  match vs with
  | [] => t
  | v :: vs' => seq_table (lua_rawseti t i v) (i + 1) vs'
  end.

(** The script value that stands for a reply (an Error as [pcall] gives it). *)
Fixpoint lua_of_reply (v : Reply) : LuaValue :=
  match v with
  | RNull => LNil
  | RInt value => LNumber (lua_Number_of_int value)
  | RBulk data => LString data
  | RArray items => LTable (seq_table ∅ 1 (map lua_of_reply items))
  | RStatus data => push_status_table data
  | RError data => push_error_table data
  end.

(** Every Int of the reply is a signed 64-bit integer. *)
Fixpoint int64_reply (v : Reply) : bool :=
  match v with
  | RInt value => (- 2 ^ 63 <=? value) && (value <? 2 ^ 63)
  | RArray items => forallb int64_reply items
  | _ => true
  end.

(** The integer survives the conversion to [lua_Number] and back. *)
Definition int_exact (value : Z) : bool :=
  match int64_of_lua_Number (lua_Number_of_int value) with
  | Some t => (t =? value) && PrimFloat.eqb (lua_Number_of_int value) (lua_Number_of_int t)
  | None => false
  end.

Definition is_null (v : Reply) : bool :=
  match v with RNull => true | _ => false end.

(** No array of the reply has a Null item and every Int is exact: the script
    value keeps all of the reply. *)
Fixpoint storable (v : Reply) : bool :=
  match v with
  | RInt value => int_exact value
  | RArray items => forallb (fun c => negb (is_null c) && storable c) items
  | _ => true
  end.

(** Calls and loop iterations [decode_reply] takes on the frame of a reply. *)
Fixpoint reply_weight (v : Reply) : nat :=
  match v with
  | RArray items => 2 + fold_right (fun c acc => (S (reply_weight c) + acc)%nat) 0%nat items
  | _ => 1
  end.

(** The payload of the first Error met when the frame is read front to back. *)
Fixpoint first_error (v : Reply) : option bytes :=
  match v with
  | RError data => Some data
  | RArray items =>
      fold_right (fun c later => match first_error c with Some d => Some d | None => later end)
        None items
  | _ => None
  end.

Definition first_error_in (items : list Reply) : option bytes :=
  fold_right (fun c later => match first_error c with Some d => Some d | None => later end)
    None items.

Definition items_weight (items : list Reply) : nat :=
  fold_right (fun c acc => (S (reply_weight c) + acc)%nat) 0%nat items.

(** ** The vocabulary of the statements *)

(** What [decode_reply] does once the header is read: the switch on the tag. *)
Definition decode_payload (luaL_where : bytes) (fuel : nat) (buf : bytes)
  (raise_on_error : bool) (type count_or_len offset : Z) : result (LuaValue * Z) :=
  let len := blen buf in
  let failed := luaL_error luaL_where "ERR reply decoding failed" in
  if type =? REPLY_NULL then Ok (LNil, offset)
  else if type =? REPLY_INT then
    if len <? size_add offset 8 then failed else
    p <- load buf offset 8 ;;
    let value := read_i64_le p in
    Ok (LNumber (lua_Number_of_int value), size_add offset 8)
  else if type =? REPLY_BULK then
    if len <? size_add offset count_or_len then failed else
    s <- load buf offset count_or_len ;;
    Ok (LString s, size_add offset count_or_len)
  else if type =? REPLY_STATUS then
    if len <? size_add offset count_or_len then failed else
    s <- load buf offset count_or_len ;;
    Ok (push_status_table s, size_add offset count_or_len)
  else if type =? REPLY_ERROR then
    if len <? size_add offset count_or_len then failed else
    s <- load buf offset count_or_len ;;
    if raise_on_error then Err (Raised s)
    else Ok (push_error_table s, size_add offset count_or_len)
  else if type =? REPLY_ARRAY then
    decode_array luaL_where fuel buf raise_on_error 1 count_or_len ∅ offset
  else luaL_error luaL_where "ERR unknown reply type".

(** The outcome of decoding the frame of [v] that ends at [stop]. *)
Definition decoded (raise : bool) (v : Reply) (stop : Z) : result (LuaValue * Z) :=
  match (if raise then first_error v else None) with
  | Some d => Err (Raised d)
  | None => Ok (lua_of_reply v, stop)
  end.

(** Decoding the frame of [c], wherever it sits in a buffer. *)
Definition decodes_in_place (luaL_where : bytes) (c : Reply) : Prop :=
  forall raise pre post fuel,
    int64_reply c = true ->
    blen (pre ++ frame c ++ post) < 2 ^ 32 ->
    (reply_weight c <= fuel)%nat ->
    decode_reply luaL_where fuel (pre ++ frame c ++ post) (blen pre) raise
    = decoded raise c (blen pre + blen (frame c)).

(** Calls and loop iterations [encode_lua_value] takes on the script value
    of a reply. *)
Fixpoint encode_weight (v : Reply) : nat :=
  match v with
  | RArray items => 3 + fold_right (fun c acc => (S (encode_weight c) + acc)%nat) 0%nat items
  | RStatus _ | RError _ => 2
  | _ => 1
  end.

(** Encoding the script value of [c] appends the frame of [c]. *)
Definition encodes_back (number2str : lua_Number -> bytes) (c : Reply) : Prop :=
  forall fuel rb,
    storable c = true ->
    blen (frame c) < 2 ^ 32 ->
    (encode_weight c <= fuel)%nat ->
    encode_lua_value number2str fuel (lua_of_reply c) rb = Ok (rb ++ frame c).

(** A reply with every kind of node, for the examples. *)
Definition sample_reply : Reply :=
  RArray [RInt 42; RBulk (cstr "ab"); RArray [RStatus (cstr "OK"); RInt (-7)];
          RError (cstr "no such key")].

(** The messages a script error of the decoder can carry. *)
Definition decoder_message (luaL_where buf : bytes) (raise_on_error : bool) (msg : bytes)
  : Prop :=
  msg = luaL_where ++ cstr "ERR reply decoding failed"
  \/ msg = luaL_where ++ cstr "ERR unknown reply type"
  \/ (raise_on_error = true /\ exists off n, load buf off n = Ok msg).

(** The globals the sandbox policy settles, after [open_allowed_libs]. *)
Definition sandbox_policy (math_lib cjson_lib struct_lib cmsgpack_lib bit_lib : table)
  (L : lua_State) : Prop :=
  lua_getglobal L "io" = LNil /\ lua_getglobal L "os" = LNil
  /\ lua_getglobal L "debug" = LNil /\ lua_getglobal L "package" = LNil
  /\ lua_getglobal L "require" = LNil /\ lua_getglobal L "dofile" = LNil
  /\ lua_getglobal L "loadfile" = LNil
  /\ lua_getglobal L "math"
     = LTable (lua_setfield (lua_setfield math_lib "random" LNil) "randomseed" LNil)
  /\ lua_getglobal L "cjson" = LTable cjson_lib
  /\ lua_getglobal L "cmsgpack" = LTable cmsgpack_lib
  /\ lua_getglobal L "struct" = LTable struct_lib
  /\ lua_getglobal L "bit" = LTable bit_lib.

(** The request frame, as [encode_args] lays it out: the item count, then
    each item behind its length. *)
Definition item_frame (item : bytes) : bytes := write_u32_le (u32 (blen item)) ++ item.

Definition arg_frame (items : list bytes) : bytes :=
  write_u32_le (u32 (Z.of_nat (length items))) ++ concat (map item_frame items).

(** The tables the loop of [set_keys_argv] fills from the items [i], [i+1], ... *)
Fixpoint install_items (items : list bytes) (i keys_count : Z) (keys argv : table)
  : table * table :=
  match items with
  | [] => (keys, argv)
  | item :: rest =>
      if i <? keys_count
      then install_items rest (i + 1) keys_count (lua_rawseti keys (i + 1) (LString item)) argv
      else install_items rest (i + 1) keys_count keys
             (lua_rawseti argv (i - keys_count + 1) (LString item))
  end.

(** The tables of a frame whose first [keys_count] items are the keys. *)
Definition keys_table (items : list bytes) (keys_count : Z) : table :=
  seq_table ∅ 1 (map LString (firstn (Z.to_nat keys_count) items)).

Definition argv_table (items : list bytes) (keys_count : Z) : table :=
  seq_table ∅ 1 (map LString (skipn (Z.to_nat keys_count) items)).

(** The reply of the path that rejects the argument frame,
    [reply_error("ERR invalid KEYS/ARGV encoding", 31)]. *)
Definition invalid_args_reply : result PtrLen :=
  Ok (Buffer (header REPLY_ERROR 31 ++ literal "ERR invalid KEYS/ARGV encoding")).

(** Sample libraries and a started module, for the examples. *)
Definition sample_base : gmap string LuaValue :=
  <["print" := LFunction "print"]> (<["pcall" := LFunction "pcall"]>
  (<["dofile" := LFunction "dofile"]> (<["loadfile" := LFunction "loadfile"]> ∅))).

Definition sample_math : table :=
  <[inr "floor" := LFunction "floor"]> (<[inr "random" := LFunction "random"]>
  (<[inr "randomseed" := LFunction "randomseed"]> ∅)).

Definition started : Statics :=
  fst (init sample_base ∅ ∅ sample_math ∅ ∅ ∅ ∅ module_start true).

(** The position information of the examples: none where the main chunk is
    running, and that of a call on the first line of the script. *)
Definition no_position : bytes := [].

Definition line_1 : bytes := cstr "user_script:1: ".

(** An interpreter for the examples: every buffer loads as [l]; numbers
    have an empty string form. *)
Definition loads_as (l : Loaded) : bytes -> Loaded := fun _ => l.

Definition no_digits : lua_Number -> bytes := fun _ => [].

(** The frame of the smoke test: two items, [00 01 02] and [03 00 04]. *)
Definition smoke_args : bytes :=
  arg_frame [["000"; "001"; "002"]; ["003"; "000"; "004"]]%byte.

(** The Error frame whose payload is exactly [msg]. *)
Definition error_frame (msg : bytes) : result PtrLen :=
  Ok (Buffer (header REPLY_ERROR (u32 (blen msg)) ++ msg)).

(** An interpreter whose numbers all have the string form 5, for the example
    of a numeric field. *)
Definition five_digits : lua_Number -> bytes := fun _ => cstr "5".

(** The arguments [arg_to_bytes] accepts, and the bytes it makes of them. *)
Definition convertible (v : LuaValue) : bool :=
  match v with
  | LString _ | LNumber _ | LBoolean _ => true
  | _ => false
  end.

Definition arg_bytes (number2str : lua_Number -> bytes) (v : LuaValue) : bytes :=
  match v with
  | LString s => s
  | LNumber n => number2str n
  | LBoolean true => cstr "1"
  | LBoolean false => cstr "0"
  | _ => []
  end.

(** What an entry point hands back when it returns: a buffer that holds at
    least a header, or one of the two outcomes the model keeps apart (a read
    C leaves undefined, the recursion bound of the model). *)
Definition framed (r : result PtrLen) : Prop :=
  match r with
  | Ok (Buffer reply) => 5 <= blen reply
  | Ok NoBuffer => False
  | Err e => e = Undefined \/ e = OutOfFuel
  end.

(** The capacities [rb_reserve] gives a buffer: 256 doubled up to 23 times;
    and the buffers it keeps: the bytes written fit the capacity, which is 0
    or such a number. *)
Definition doubled (c : Z) : Prop :=
  exists k : nat, (k <= 23)%nat /\ c = 256 * 2 ^ Z.of_nat k.

Definition sound (rb : Capacity.ReplyBuffer) : Prop :=
  Capacity.len rb <= Capacity.cap rb
  /\ (Capacity.cap rb = 0 \/ doubled (Capacity.cap rb)).

(** * Properties *)

(** ** Bytes *)

Lemma byte_to_Z_range (b : byte) : 0 <= byte_to_Z b < 256.
Proof.
  unfold byte_to_Z. pose proof (Byte.to_N_bounded b). lia.
Qed.

Lemma byte_to_of_Z (v : Z) : byte_to_Z (byte_of_Z v) = v mod 256.
Proof.
  unfold byte_to_Z, byte_of_Z.
  assert (Hr : 0 <= v mod 256 < 256) by (apply Z.mod_pos_bound; lia).
  destruct (Byte.of_N (Z.to_N (v mod 256))) as [b|] eqn:E.
  - apply Byte.to_of_N in E. rewrite E. lia.
  - apply Byte.of_N_None_iff in E. lia.
Qed.

Lemma lor_shiftl_add (a b n : Z) :
  0 <= n -> 0 <= a < 2 ^ n -> Z.lor a (Z.shiftl b n) = a + b * 2 ^ n.
Proof.
  intros Hn Ha.
  assert (Hland : Z.land a (Z.shiftl b n) = 0).
  { apply Z.bits_inj'. intros i Hi. rewrite Z.land_spec, Z.bits_0.
    destruct (Z.lt_ge_cases i n) as [Hlt|Hge].
    - rewrite Z.shiftl_spec_low by lia. apply andb_false_r.
    - replace (Z.testbit a i) with false; [reflexivity|].
      symmetry. destruct (Z.eq_dec a 0) as [->|Hnz]; [apply Z.bits_0|].
      apply Z.bits_above_log2; [lia|].
      apply Z.log2_lt_pow2; [lia|].
      apply Z.lt_le_trans with (2 ^ n); [lia|].
      apply Z.pow_le_mono_r; lia. }
  rewrite <- Z.lxor_lor by exact Hland.
  rewrite <- Z.add_nocarry_lxor by exact Hland.
  rewrite Z.shiftl_mul_pow2 by lia. reflexivity.
Qed.

Lemma land_255 (v : Z) : Z.land v 255 = v mod 256.
Proof. change 255 with (Z.ones 8). rewrite Z.land_ones by lia. reflexivity. Qed.

Lemma byte_of_land (v : Z) : byte_to_Z (byte_of_Z (Z.land v 255)) = v mod 256.
Proof.
  rewrite byte_to_of_Z, land_255. apply Z.mod_mod. lia.
Qed.

Lemma lor_shiftl_const (a b n p : Z) :
  p = 2 ^ n -> 0 <= n -> 0 <= a < p -> Z.lor a (Z.shiftl b n) = a + b * p.
Proof. intros ->. apply lor_shiftl_add. Qed.

Lemma read_write_u32 (v : Z) (rest : bytes) :
  read_u32_le (write_u32_le v ++ rest) = u32 v.
Proof.
  unfold write_u32_le, read_u32_le, u32. cbn [app].
  rewrite !byte_of_land, !Z.shiftr_div_pow2 by lia.
  change (2 ^ 8) with 256. change (2 ^ 16) with 65536. change (2 ^ 24) with 16777216.
  change (2 ^ 32) with 4294967296.
  pose proof (Z.mod_pos_bound v 256 eq_refl).
  pose proof (Z.mod_pos_bound (v / 256) 256 eq_refl).
  pose proof (Z.mod_pos_bound (v / 65536) 256 eq_refl).
  rewrite (lor_shiftl_const _ _ 8 256) by (try reflexivity; lia).
  rewrite (lor_shiftl_const _ _ 16 65536) by (try reflexivity; lia).
  rewrite (lor_shiftl_const _ _ 24 16777216) by (try reflexivity; lia).
  Z.div_mod_to_equations. lia.
Qed.

Lemma to_int64_u64 (v : Z) : to_int64 (u64 v) = to_int64 v.
Proof. unfold to_int64, u64. rewrite Z.mod_mod by lia. reflexivity. Qed.

Lemma read_write_i64 (v : Z) (rest : bytes) :
  read_i64_le (write_i64_le v ++ rest) = to_int64 v.
Proof.
  rewrite <- to_int64_u64.
  unfold write_i64_le, read_i64_le. cbn [app]. cbv zeta.
  rewrite !byte_of_land, !Z.shiftr_div_pow2 by lia.
  rewrite Z.lor_0_l. f_equal.
  assert (Hu : 0 <= u64 v < 18446744073709551616) by (apply Z.mod_pos_bound; lia).
  generalize dependent (u64 v). intros u Hu.
  change (2 ^ 8) with 256. change (2 ^ 16) with 65536. change (2 ^ 24) with 16777216.
  change (2 ^ 32) with 4294967296. change (2 ^ 40) with 1099511627776.
  change (2 ^ 48) with 281474976710656. change (2 ^ 56) with 72057594037927936.
  assert (Hb : forall k, 0 <= (u / k) mod 256 < 256) by (intros; apply Z.mod_pos_bound; lia).
  pose proof (Z.mod_pos_bound u 256 eq_refl).
  pose proof (Hb 256). pose proof (Hb 65536). pose proof (Hb 16777216).
  pose proof (Hb 4294967296). pose proof (Hb 1099511627776). pose proof (Hb 281474976710656).
  clear Hb.
  rewrite (lor_shiftl_const _ _ 8 256) by (try reflexivity; lia).
  rewrite (lor_shiftl_const _ _ 16 65536) by (try reflexivity; lia).
  rewrite (lor_shiftl_const _ _ 24 16777216) by (try reflexivity; lia).
  rewrite (lor_shiftl_const _ _ 32 4294967296) by (try reflexivity; lia).
  rewrite (lor_shiftl_const _ _ 40 1099511627776) by (try reflexivity; lia).
  rewrite (lor_shiftl_const _ _ 48 281474976710656) by (try reflexivity; lia).
  rewrite (lor_shiftl_const _ _ 56 72057594037927936) by (try reflexivity; lia).
  clear - Hu. Z.div_mod_to_equations. lia.
Qed.

Lemma to_int64_small (v : Z) : - 2 ^ 63 <= v < 2 ^ 63 -> to_int64 v = v.
Proof.
  intros Hv. unfold to_int64.
  change (2 ^ 64) with 18446744073709551616. change (2 ^ 63) with 9223372036854775808 in *.
  destruct (Z.ltb_spec (v mod 18446744073709551616) 9223372036854775808);
    Z.div_mod_to_equations; lia.
Qed.

Lemma u32_small (v : Z) : 0 <= v < 2 ^ 32 -> u32 v = v.
Proof. intros. unfold u32. apply Z.mod_small. assumption. Qed.

Lemma to_int32_small (v : Z) : 0 <= v < 2 ^ 31 -> to_int32 v = v.
Proof.
  intros Hv. unfold to_int32. change (2 ^ 31) with 2147483648 in *.
  rewrite Z.mod_small by lia.
  destruct (Z.ltb_spec v 2147483648); lia.
Qed.

Lemma size_add_small (a b : Z) : 0 <= a + b < 2 ^ 32 -> size_add a b = a + b.
Proof. intros. unfold size_add, SIZE_BITS. apply Z.mod_small. assumption. Qed.

(** Arithmetic with the powers of two written out. *)
Ltac pow2 :=
  change (2 ^ 31) with 2147483648 in *;
  change (2 ^ 32) with 4294967296 in *;
  change (2 ^ 63) with 9223372036854775808 in *;
  change (2 ^ 64) with 18446744073709551616 in *.
Ltac plia := pow2; lia.

(** ** Reading from buffers *)

Lemma blen_app (a b : bytes) : blen (a ++ b) = blen a + blen b.
Proof. unfold blen. rewrite length_app. lia. Qed.

Lemma blen_nonneg (a : bytes) : 0 <= blen a.
Proof. unfold blen. lia. Qed.

Lemma blen_cons (x : byte) (a : bytes) : blen (x :: a) = 1 + blen a.
Proof. unfold blen. cbn [length]. lia. Qed.

Lemma load_prefix (x rest : bytes) : load (x ++ rest) 0 (blen x) = Ok x.
Proof.
  unfold load. pose proof (blen_nonneg x). pose proof (blen_nonneg rest).
  rewrite blen_app.
  replace ((0 <=? 0) && (0 <=? blen x) && (0 + blen x <=? blen x + blen rest)) with true
    by (symmetry; rewrite !andb_true_iff, !Z.leb_le; lia).
  unfold blen. rewrite Nat2Z.id. change (Z.to_nat 0) with 0%nat.
  rewrite drop_0, take_app_length. reflexivity.
Qed.

Lemma load_shift (pre rest : bytes) (k n : Z) :
  0 <= k -> load (pre ++ rest) (blen pre + k) n = load rest k n.
Proof.
  intros Hk. unfold load. pose proof (blen_nonneg pre).
  rewrite blen_app.
  replace (Z.to_nat (blen pre + k)) with (length pre + Z.to_nat k)%nat by (unfold blen; lia).
  rewrite drop_app_add.
  replace (0 <=? blen pre + k) with (0 <=? k)
    by (destruct (Z.leb_spec 0 k), (Z.leb_spec 0 (blen pre + k)); lia).
  replace (blen pre + k + n <=? blen pre + blen rest) with (k + n <=? blen rest)
    by (destruct (Z.leb_spec (k + n) (blen rest)),
                 (Z.leb_spec (blen pre + k + n) (blen pre + blen rest)); lia).
  reflexivity.
Qed.

Lemma load_at (pre x rest : bytes) : load (pre ++ x ++ rest) (blen pre) (blen x) = Ok x.
Proof.
  replace (blen pre) with (blen pre + 0) by lia.
  rewrite load_shift by lia. apply load_prefix.
Qed.

Lemma load_too_far (buf : bytes) (off n : Z) :
  blen buf < off + n -> load buf off n = Err Undefined.
Proof.
  intros H. unfold load.
  replace (off + n <=? blen buf) with false by (symmetry; apply Z.leb_gt; lia).
  rewrite andb_false_r. reflexivity.
Qed.

Lemma header_length (type c : Z) : blen (header type c) = 5.
Proof. reflexivity. Qed.

Lemma byte_of_small (v : Z) : 0 <= v < 256 -> byte_to_Z (byte_of_Z v) = v.
Proof. intros. rewrite byte_to_of_Z. apply Z.mod_small. assumption. Qed.

(** Reading back the header that [rb_write_header] wrote. *)
Lemma load_header (pre rest : bytes) (type c : Z) :
  0 <= type < 256 ->
  load8 (pre ++ header type c ++ rest) (blen pre) = Ok type /\
  (hdr <- load (pre ++ header type c ++ rest) (blen pre + 1) 4 ;; Ok (read_u32_le hdr))
    = Ok (u32 c).
Proof.
  intros Ht. split.
  - unfold load8. change (header type c ++ rest) with ([byte_of_Z type] ++ write_u32_le c ++ rest).
    change 1 with (blen [byte_of_Z type]) at 1. rewrite load_at. cbn [bind].
    rewrite byte_of_small by exact Ht. reflexivity.
  - rewrite load_shift by lia.
    change (header type c ++ rest) with ([byte_of_Z type] ++ write_u32_le c ++ rest).
    change 1 with (blen [byte_of_Z type] + 0). rewrite load_shift by lia.
    change 4 with (blen (write_u32_le c)). rewrite load_prefix. cbn [bind].
    rewrite <- (app_nil_r (write_u32_le c)). rewrite read_write_u32. reflexivity.
Qed.

(** ** Decoding the frame of a reply *)

(** An induction principle that reaches the items of an array. *)
Lemma Reply_forall_ind (P : Reply -> Prop) :
  P RNull ->
  (forall value, P (RInt value)) ->
  (forall data, P (RBulk data)) ->
  (forall items, Forall P items -> P (RArray items)) ->
  (forall data, P (RStatus data)) ->
  (forall data, P (RError data)) ->
  forall v, P v.
Proof.
  intros HNull HInt HBulk HArray HStatus HError.
  fix IH 1. intros [ | value | data | items | data | data ].
  - exact HNull.
  - apply HInt.
  - apply HBulk.
  - apply HArray. induction items as [ | c items IHitems ].
    + constructor.
    + constructor; [apply IH | exact IHitems].
  - apply HStatus.
  - apply HError.
Qed.

Section Decoding.

Variable luaL_where : bytes.

Lemma decode_reply_header (fuel : nat) (pre rest : bytes) (type c : Z) (raise : bool) :
  0 <= type < 256 ->
  blen (pre ++ header type c ++ rest) < 2 ^ 32 ->
  decode_reply luaL_where (S fuel) (pre ++ header type c ++ rest) (blen pre) raise
  = decode_payload luaL_where fuel (pre ++ header type c ++ rest) raise type (u32 c) (blen pre + 5).
Proof.
  intros Ht Hlen.
  pose proof (blen_nonneg pre). pose proof (blen_nonneg rest).
  assert (Hb : blen (pre ++ header type c ++ rest) = blen pre + 5 + blen rest)
    by (rewrite !blen_app, header_length; lia).
  cbn [decode_reply].
  rewrite size_add_small by lia.
  replace (blen (pre ++ header type c ++ rest) <? blen pre + 5) with false
    by (symmetry; apply Z.ltb_ge; lia).
  destruct (load_header pre rest type c Ht) as [H8 H32].
  rewrite H8. cbn [bind].
  destruct (load (pre ++ header type c ++ rest) (blen pre + 1) 4) as [hdr|e] eqn:E;
    cbn [bind] in H32; [|discriminate].
  injection H32 as H32. cbn [bind]. rewrite H32. reflexivity.
Qed.

Lemma frame_min_length (v : Reply) : 5 <= blen (frame v).
Proof.
  destruct v; cbn [frame]; rewrite ?blen_app, ?header_length;
    repeat match goal with |- context [blen ?x] =>
      lazymatch goal with H : 0 <= blen x |- _ => fail | _ => pose proof (blen_nonneg x) end end;
    lia.
Qed.

Lemma frames_min_length (items : list Reply) :
  5 * Z.of_nat (length items) <= blen (concat (map frame items)).
Proof.
  induction items as [ | c items IH ]; cbn [map concat length].
  - unfold blen. cbn. lia.
  - rewrite blen_app. pose proof (frame_min_length c). lia.
Qed.

Lemma decode_array_frames (items : list Reply) :
  Forall (decodes_in_place luaL_where) items ->
  forall raise pre post fuel i t count,
    forallb int64_reply items = true ->
    blen (pre ++ concat (map frame items) ++ post) < 2 ^ 32 ->
    1 <= i ->
    count = i + Z.of_nat (length items) - 1 ->
    count < 2 ^ 31 ->
    (items_weight items + 1 <= fuel)%nat ->
    decode_array luaL_where fuel (pre ++ concat (map frame items) ++ post) raise i count t
      (blen pre)
    = match (if raise then first_error_in items else None) with
      | Some d => Err (Raised d)
      | None => Ok (LTable (seq_table t i (map lua_of_reply items)),
                    blen pre + blen (concat (map frame items)))
      end.
Proof.
  induction 1 as [ | c items Hc _ IH ];
    intros raise pre post fuel i t count Hint Hlen Hi Hcount Hmax Hfuel.
  - destruct fuel as [ | fuel ]; [cbn in Hfuel; plia|].
    cbn [decode_array map concat length] in *.
    replace (i <=? count) with false by (symmetry; apply Z.leb_gt; plia).
    destruct raise; cbn; rewrite Z.add_0_r; reflexivity.
  - destruct fuel as [ | fuel ]; [cbn in Hfuel; plia|].
    cbn [forallb] in Hint. apply andb_true_iff in Hint as [Hintc Hint].
    cbn [items_weight fold_right] in Hfuel. fold (items_weight items) in Hfuel.
    cbn [map concat length] in *.
    cbn [decode_array].
    replace (i <=? count) with true by (symmetry; apply Z.leb_le; plia).
    rewrite <- app_assoc. rewrite <- app_assoc in Hlen.
    rewrite (Hc raise pre (concat (map frame items) ++ post) fuel Hintc)
      by (try exact Hlen; plia).
    unfold decoded.
    assert (Hfe : first_error_in (c :: items)
                  = match first_error c with Some d => Some d | None => first_error_in items end)
      by reflexivity.
    destruct raise.
    + rewrite Hfe. destruct (first_error c) as [d|]; [reflexivity|].
      rewrite u32_small, to_int32_small by plia.
      rewrite <- blen_app, app_assoc.
      rewrite (IH true (pre ++ frame c) post fuel (i + 1) _ count Hint)
        by (rewrite <- ?app_assoc; try exact Hlen; plia).
      destruct (first_error_in items); [reflexivity|].
      cbn [seq_table]. rewrite !blen_app. do 2 f_equal. plia.
    + rewrite u32_small, to_int32_small by plia.
      rewrite <- blen_app, app_assoc.
      rewrite (IH false (pre ++ frame c) post fuel (i + 1) _ count Hint)
        by (rewrite <- ?app_assoc; try exact Hlen; plia).
      cbn [seq_table]. rewrite !blen_app. do 2 f_equal. plia.
Qed.

Lemma load_payload (pre payload post : bytes) (type c : Z) :
  load (pre ++ header type c ++ payload ++ post) (blen pre + 5) (blen payload) = Ok payload.
Proof.
  rewrite (app_assoc pre). rewrite <- (header_length type c), <- blen_app.
  apply load_at.
Qed.

Lemma read_i64_exact (value : Z) :
  - 2 ^ 63 <= value < 2 ^ 63 -> read_i64_le (write_i64_le value) = value.
Proof.
  intros H. rewrite <- (app_nil_r (write_i64_le value)), read_write_i64.
  apply to_int64_small. exact H.
Qed.

(** Decoding the frame of a reply, wherever it lies in the buffer: the
    script value of the reply with the cursor after the frame, or, under
    [raise_on_error], the first Error of the frame raised. *)
Lemma decode_reply_frame (v : Reply) : decodes_in_place luaL_where v.
Proof.
  induction v as [ | value | data | items IH | data | data ] using Reply_forall_ind;
    intros raise pre post fuel Hint Hlen Hfuel;
    (destruct fuel as [ | fuel ]; [cbn in Hfuel; lia|]);
    cbn [frame] in *; rewrite <- ?app_assoc in *;
    pose proof (blen_nonneg pre); pose proof (blen_nonneg post).
  - rewrite decode_reply_header by (try exact Hlen; unfold REPLY_NULL; lia).
    unfold decode_payload, decoded. cbn. destruct raise; reflexivity.
  - rewrite decode_reply_header by (try exact Hlen; unfold REPLY_INT; lia).
    unfold decode_payload, decoded.
    rewrite !blen_app, header_length in *.
    change (blen (write_i64_le value)) with 8 in *.
    change (REPLY_INT =? REPLY_NULL) with false. change (REPLY_INT =? REPLY_INT) with true.
    cbv iota. rewrite size_add_small by plia.
    replace (_ <? blen pre + 5 + 8) with false by (symmetry; apply Z.ltb_ge; lia).
    change 8 with (blen (write_i64_le value)) at 1. rewrite load_payload. cbn [bind].
    cbn [int64_reply] in Hint. apply andb_true_iff in Hint as [Hlo Hhi].
    apply Z.leb_le in Hlo. apply Z.ltb_lt in Hhi.
    rewrite read_i64_exact by lia.
    destruct raise; cbn [first_error lua_of_reply]; do 2 f_equal; lia.
  - pose proof (blen_nonneg data).
    rewrite decode_reply_header by (try exact Hlen; unfold REPLY_BULK; lia).
    unfold decode_payload, decoded.
    rewrite !blen_app, header_length in *.
    change (REPLY_BULK =? REPLY_NULL) with false. change (REPLY_BULK =? REPLY_INT) with false.
    change (REPLY_BULK =? REPLY_BULK) with true. cbv iota.
    rewrite !u32_small by (rewrite ?u32_small; plia).
    rewrite size_add_small by plia.
    replace (_ <? blen pre + 5 + blen data) with false by (symmetry; apply Z.ltb_ge; lia).
    rewrite load_payload. cbn [bind].
    destruct raise; cbn [first_error lua_of_reply]; do 2 f_equal; lia.
  - pose proof (frames_min_length items) as Hmin.
    rewrite decode_reply_header by (try exact Hlen; unfold REPLY_ARRAY; lia).
    unfold decode_payload.
    rewrite !blen_app, header_length in *.
    change (REPLY_ARRAY =? REPLY_NULL) with false. change (REPLY_ARRAY =? REPLY_INT) with false.
    change (REPLY_ARRAY =? REPLY_BULK) with false. change (REPLY_ARRAY =? REPLY_STATUS) with false.
    change (REPLY_ARRAY =? REPLY_ERROR) with false. change (REPLY_ARRAY =? REPLY_ARRAY) with true.
    cbv iota.
    rewrite !u32_small by (rewrite ?u32_small; plia).
    rewrite (app_assoc pre).
    replace (blen pre + 5) with (blen (pre ++ header REPLY_ARRAY (Z.of_nat (length items))))
      by (rewrite blen_app, header_length; reflexivity).
    cbn [int64_reply] in Hint. cbn [reply_weight] in Hfuel. fold (items_weight items) in Hfuel.
    rewrite (decode_array_frames items IH raise _ post fuel 1 ∅ (Z.of_nat (length items)) Hint)
      by (rewrite <- ?app_assoc, ?blen_app, ?header_length; plia).
    unfold decoded. cbn [first_error lua_of_reply]. fold (first_error_in items).
    rewrite !blen_app, header_length.
    destruct raise; [destruct (first_error_in items)|]; try reflexivity; do 2 f_equal; lia.
  - pose proof (blen_nonneg data).
    rewrite decode_reply_header by (try exact Hlen; unfold REPLY_STATUS; lia).
    unfold decode_payload, decoded.
    rewrite !blen_app, header_length in *.
    change (REPLY_STATUS =? REPLY_NULL) with false. change (REPLY_STATUS =? REPLY_INT) with false.
    change (REPLY_STATUS =? REPLY_BULK) with false. change (REPLY_STATUS =? REPLY_STATUS) with true.
    cbv iota.
    rewrite !u32_small by (rewrite ?u32_small; plia).
    rewrite size_add_small by plia.
    replace (_ <? blen pre + 5 + blen data) with false by (symmetry; apply Z.ltb_ge; lia).
    rewrite load_payload. cbn [bind].
    destruct raise; cbn [first_error lua_of_reply]; do 2 f_equal; lia.
  - pose proof (blen_nonneg data).
    rewrite decode_reply_header by (try exact Hlen; unfold REPLY_ERROR; lia).
    unfold decode_payload, decoded.
    rewrite !blen_app, header_length in *.
    change (REPLY_ERROR =? REPLY_NULL) with false. change (REPLY_ERROR =? REPLY_INT) with false.
    change (REPLY_ERROR =? REPLY_BULK) with false. change (REPLY_ERROR =? REPLY_STATUS) with false.
    change (REPLY_ERROR =? REPLY_ERROR) with true.
    cbv iota.
    rewrite !u32_small by (rewrite ?u32_small; plia).
    rewrite size_add_small by plia.
    replace (_ <? blen pre + 5 + blen data) with false by (symmetry; apply Z.ltb_ge; lia).
    rewrite load_payload. cbn [bind].
    destruct raise; cbn [first_error lua_of_reply]; [reflexivity|]. do 2 f_equal; lia.
Qed.

End Decoding.

Lemma reply_weight_frame (v : Reply) : (reply_weight v + 1 <= length (frame v))%nat.
Proof.
  induction v as [ | value | data | items IH | data | data ] using Reply_forall_ind;
    cbn [frame reply_weight header write_u32_le length app]; try lia.
  enough (fold_right (fun c acc => (S (reply_weight c) + acc)%nat) 0%nat items
          <= length (concat (map frame items)))%nat by lia.
  induction IH as [ | c items Hc _ IHitems ]; cbn [fold_right map concat]; [lia|].
  rewrite length_app. lia.
Qed.

(** ** Tables built by [lua_rawseti] *)

Lemma lua_rawseti_value (t : table) (i : Z) (v : LuaValue) :
  is_nil v = false -> lua_rawseti t i v = <[inl i := v]> t.
Proof. intros H. unfold lua_rawseti, lua_rawset. rewrite H. reflexivity. Qed.

Lemma seq_table_lookup_other (vs : list LuaValue) :
  forall (t : table) (i : Z) (k : Z + string),
    (forall j, i <= j -> k <> inl j) ->
    seq_table t i vs !! k = t !! k.
Proof.
  induction vs as [ | v vs IH ]; intros t i k Hk; cbn [seq_table]; [reflexivity|].
  rewrite IH by (intros j Hj; apply Hk; lia).
  unfold lua_rawseti, lua_rawset.
  destruct (is_nil v).
  - apply lookup_delete_ne. apply not_eq_sym, Hk. lia.
  - apply lookup_insert_ne. apply not_eq_sym, Hk. lia.
Qed.

Lemma seq_table_lookup (vs : list LuaValue) :
  forall (t : table) (i : Z) (j : nat) (v : LuaValue),
    Forall (fun v => is_nil v = false) vs ->
    vs !! j = Some v ->
    seq_table t i vs !! inl (i + Z.of_nat j) = Some v.
Proof.
  induction vs as [ | w vs IH ]; intros t i j v Hvs Hj; [discriminate|].
  apply Forall_cons in Hvs as [Hw Hvs].
  cbn [seq_table]. destruct j as [ | j ].
  - injection Hj as ->.
    rewrite seq_table_lookup_other by (intros j Hj [= ?]; lia).
    rewrite lua_rawseti_value by exact Hw.
    replace (i + Z.of_nat 0) with i by lia. apply lookup_insert_eq.
  - cbn in Hj. replace (i + Z.of_nat (S j)) with (i + 1 + Z.of_nat j) by lia.
    apply IH; assumption.
Qed.

Lemma seq_table_lookup_past (vs : list LuaValue) (t : table) (i k : Z) :
  i + Z.of_nat (length vs) <= k ->
  t !! inl k = None ->
  seq_table t i vs !! inl k = None.
Proof.
  revert t i. induction vs as [ | v vs IH ]; intros t i Hk Ht; cbn [seq_table]; [exact Ht|].
  cbn [length] in Hk. apply IH; [lia|].
  unfold lua_rawseti, lua_rawset. destruct (is_nil v).
  - rewrite lookup_delete_ne by (intros [= ?]; lia). exact Ht.
  - rewrite lookup_insert_ne by (intros [= ?]; lia). exact Ht.
Qed.

Lemma seq_table_size (vs : list LuaValue) :
  forall (t : table) (i : Z),
    Forall (fun v => is_nil v = false) vs ->
    (forall k, i <= k -> t !! inl k = None) ->
    size (seq_table t i vs) = (size t + length vs)%nat.
Proof.
  induction vs as [ | v vs IH ]; intros t i Hvs Ht; cbn [seq_table length]; [lia|].
  apply Forall_cons in Hvs as [Hv Hvs].
  rewrite IH; [ | exact Hvs | ].
  - rewrite lua_rawseti_value by exact Hv.
    rewrite map_size_insert_None by (apply Ht; lia). lia.
  - intros k Hk. rewrite lua_rawseti_value by exact Hv.
    rewrite lookup_insert_ne by (intros [= ?]; lia). apply Ht. lia.
Qed.

Lemma first_border_run (t : table) (fuel : nat) (n m : Z) :
  n <= m ->
  (forall k, n < k <= m -> is_nil (lua_rawgeti t k) = false) ->
  Z.of_nat fuel = m - n \/ (m - n <= Z.of_nat fuel /\ is_nil (lua_rawgeti t (m + 1)) = true) ->
  first_border t fuel n = m.
Proof.
  revert n. induction fuel as [ | fuel IH ]; intros n Hnm Hfull Hstop.
  - cbn [first_border]. destruct Hstop as [ ? | [? ?] ]; lia.
  - cbn [first_border]. destruct (Z.eq_dec n m) as [->|Hne].
    + destruct Hstop as [ ? | [_ Hnil] ]; [lia|]. rewrite Hnil. reflexivity.
    + rewrite Hfull by lia. apply IH; [lia | intros; apply Hfull; lia | ].
      destruct Hstop as [ ? | [? ?] ]; [left; lia | right; split; [lia | assumption] ].
Qed.

Lemma seq_table_objlen (vs : list LuaValue) :
  Forall (fun v => is_nil v = false) vs ->
  lua_objlen (seq_table ∅ 1 vs) = Z.of_nat (length vs).
Proof.
  intros Hvs. unfold lua_objlen.
  rewrite seq_table_size by (try exact Hvs; intros; apply lookup_empty).
  rewrite map_size_empty. cbn [Nat.add].
  apply first_border_run.
  - lia.
  - intros k Hk. unfold lua_rawgeti, lua_rawget.
    destruct (lookup_lt_is_Some_2 vs (Z.to_nat (k - 1))) as [v Hv]; [lia|].
    replace k with (1 + Z.of_nat (Z.to_nat (k - 1))) by lia.
    rewrite (seq_table_lookup vs ∅ 1 _ v Hvs Hv). cbn [default].
    rewrite Forall_lookup in Hvs. apply (Hvs _ _ Hv).
  - left. lia.
Qed.

(** ** Encoding the script value of a reply *)

Section Encoding.

Variable number2str : lua_Number -> bytes.

Lemma rb_append_all (rb data : bytes) : rb_append rb data (blen data) = Ok (rb ++ data).
Proof.
  unfold rb_append. rewrite <- (app_nil_r data) at 1. rewrite load_prefix. reflexivity.
Qed.

Lemma rb_write_header_ok (rb : bytes) (type c : Z) :
  rb_write_header rb type c = Ok (rb ++ header type c).
Proof. unfold rb_write_header. apply (rb_append_all rb (header type c)). Qed.

Lemma lua_of_reply_nil (c : Reply) : is_nil (lua_of_reply c) = is_null c.
Proof. destruct c; reflexivity. Qed.

Lemma encode_items_frames (items : list Reply) :
  Forall (encodes_back number2str) items ->
  forall (t : table) fuel i count rb,
    forallb storable items = true ->
    blen (concat (map frame items)) < 2 ^ 32 ->
    1 <= i ->
    count = i + Z.of_nat (length items) - 1 ->
    count < 2 ^ 31 ->
    (forall (j : nat) c, items !! j = Some c -> lua_rawgeti t (i + Z.of_nat j) = lua_of_reply c) ->
    (fold_right (fun c acc => (S (encode_weight c) + acc)%nat) 0%nat items + 1 <= fuel)%nat ->
    encode_items number2str fuel t i count rb = Ok (rb ++ concat (map frame items)).
Proof.
  induction 1 as [ | c items Hc _ IH ];
    intros t fuel i count rb Hst Hlen Hi Hcount Hmax Hget Hfuel;
    (destruct fuel as [ | fuel ]; [cbn in Hfuel; lia|]);
    cbn [encode_items map concat length fold_right forallb] in *.
  - replace (i <=? count) with false by (symmetry; apply Z.leb_gt; lia).
    rewrite app_nil_r. reflexivity.
  - replace (i <=? count) with true by (symmetry; apply Z.leb_le; lia).
    apply andb_true_iff in Hst as [Hstc Hst].
    rewrite blen_app in Hlen.
    pose proof (blen_nonneg (frame c)). pose proof (blen_nonneg (concat (map frame items))).
    rewrite to_int32_small by plia.
    replace i with (i + Z.of_nat 0) at 1 by lia.
    rewrite (Hget 0%nat c eq_refl).
    rewrite (Hc fuel rb Hstc) by plia. cbn [bind].
    rewrite size_add_small by plia.
    rewrite (IH t fuel (i + 1) count (rb ++ frame c) Hst); try plia.
    + rewrite <- app_assoc. reflexivity.
    + intros j c' Hj. replace (i + 1 + Z.of_nat j) with (i + Z.of_nat (S j)) by lia.
      apply Hget. exact Hj.
Qed.

(** The script value of a storable reply encodes to the frame of the reply. *)
Lemma encode_lua_of_reply (v : Reply) : encodes_back number2str v.
Proof.
  induction v as [ | value | data | items IH | data | data ] using Reply_forall_ind;
    intros fuel rb Hst Hlen Hfuel;
    (destruct fuel as [ | fuel ]; [cbn in Hfuel; lia|]);
    cbn [lua_of_reply encode_lua_value frame].
  - apply rb_write_header_ok.
  - cbn [storable] in Hst. unfold int_exact in Hst.
    destruct (int64_of_lua_Number (lua_Number_of_int value)) as [t|]; [|discriminate].
    apply andb_true_iff in Hst as [Ht Heq]. apply Z.eqb_eq in Ht. subst t.
    rewrite Heq, rb_write_header_ok. cbn [bind].
    rewrite (rb_append_all _ (write_i64_le value)), <- app_assoc. reflexivity.
  - rewrite rb_write_header_ok. cbn [bind]. rewrite rb_append_all, <- app_assoc. reflexivity.
  - destruct fuel as [ | fuel ]; [cbn in Hfuel; lia|].
    cbn [encode_table].
    set (vs := map lua_of_reply items).
    assert (Hvs : Forall (fun v => is_nil v = false) vs).
    { subst vs. cbn [storable] in Hst. rewrite forallb_forall in Hst.
      apply Forall_forall. intros v Hv. apply list_elem_of_In, in_map_iff in Hv as [c [<- Hc]].
      specialize (Hst c Hc). apply andb_true_iff in Hst as [Hn _].
      rewrite lua_of_reply_nil. destruct (is_null c); [discriminate|reflexivity]. }
    assert (Hok : lua_getfield (seq_table ∅ 1 vs) "ok" = LNil).
    { unfold lua_getfield, lua_rawget.
      rewrite seq_table_lookup_other by (intros; discriminate). reflexivity. }
    assert (Herr : lua_getfield (seq_table ∅ 1 vs) "err" = LNil).
    { unfold lua_getfield, lua_rawget.
      rewrite seq_table_lookup_other by (intros; discriminate). reflexivity. }
    rewrite Hok, Herr. cbn [lua_isstring negb andb].
    rewrite seq_table_objlen by exact Hvs.
    subst vs. rewrite length_map.
    rewrite rb_write_header_ok. cbn [bind].
    cbn [frame] in Hlen. rewrite blen_app, header_length in Hlen.
    pose proof (frames_min_length items).
    cbn [encode_weight] in Hfuel.
    rewrite (encode_items_frames items IH _ fuel 1 (Z.of_nat (length items))); try plia.
    + rewrite <- app_assoc. reflexivity.
    + cbn [storable] in Hst. rewrite forallb_forall in Hst. apply forallb_forall.
      intros c Hc. specialize (Hst c Hc). apply andb_true_iff in Hst as [_ Hs]. exact Hs.
    + intros j c Hj. unfold lua_rawgeti, lua_rawget.
      rewrite (seq_table_lookup _ ∅ 1 j (lua_of_reply c)); [reflexivity | | ].
      * cbn [storable] in Hst. rewrite forallb_forall in Hst.
        apply Forall_forall. intros v Hv. apply list_elem_of_In, in_map_iff in Hv as [c' [<- Hc']].
        specialize (Hst c' Hc'). apply andb_true_iff in Hst as [Hn _].
        rewrite lua_of_reply_nil. destruct (is_null c'); [discriminate|reflexivity].
      * rewrite list_lookup_fmap, Hj. reflexivity.
  - destruct fuel as [ | fuel ]; [cbn in Hfuel; lia|].
    unfold push_status_table. cbn [encode_table].
    unfold lua_getfield, lua_setfield, lua_rawset, lua_rawget. cbn [is_nil].
    rewrite lookup_insert_eq. cbn [default lua_isstring lua_tolstring].
    rewrite rb_write_header_ok. cbn [bind]. rewrite rb_append_all, <- app_assoc. reflexivity.
  - destruct fuel as [ | fuel ]; [cbn in Hfuel; lia|].
    unfold push_error_table. cbn [encode_table].
    unfold lua_getfield, lua_setfield, lua_rawset, lua_rawget. cbn [is_nil].
    rewrite lookup_insert_ne by discriminate. rewrite lookup_empty, lookup_insert_eq.
    cbn [default lua_isstring lua_tolstring negb andb].
    rewrite rb_write_header_ok. cbn [bind]. rewrite rb_append_all, <- app_assoc. reflexivity.
Qed.

End Encoding.

(** ** The fuel the entry points give the codec *)

Lemma value_weight_table (t : table) (k : Z + string) (x : LuaValue) :
  t !! k = Some x ->
  map_fold (fun _ c acc => (S (value_weight c) + acc)%nat) 0%nat t
  = (S (value_weight x)
     + map_fold (fun _ c acc => (S (value_weight c) + acc)%nat) 0%nat (delete k t))%nat.
Proof.
  intros Hk.
  apply (map_fold_delete_L (fun (_ : Z + string) c acc => (S (value_weight c) + acc)%nat));
    [intros; lia | exact Hk].
Qed.

Lemma items_weight_table (items : list Reply) :
  Forall (fun c => storable c = true -> (encode_weight c <= value_weight (lua_of_reply c))%nat)
    items ->
  forall (t : table) (i : Z),
    forallb storable items = true ->
    (forall (j : nat) c, items !! j = Some c -> t !! inl (i + Z.of_nat j) = Some (lua_of_reply c)) ->
    (fold_right (fun c acc => (S (encode_weight c) + acc)%nat) 0%nat items
     <= map_fold (fun _ c acc => (S (value_weight c) + acc)%nat) 0%nat t)%nat.
Proof.
  induction 1 as [ | c items Hc _ IH ]; intros t i Hst Hget; cbn [fold_right forallb] in *; [lia|].
  apply andb_true_iff in Hst as [Hstc Hst].
  pose proof (Hget 0%nat c eq_refl) as H0. replace (i + Z.of_nat 0) with i in H0 by lia.
  rewrite (value_weight_table t _ _ H0).
  specialize (IH (delete (inl i) t) (i + 1) Hst).
  specialize (Hc Hstc).
  enough (fold_right (fun c acc => (S (encode_weight c) + acc)%nat) 0%nat items
          <= map_fold (fun _ c acc => (S (value_weight c) + acc)%nat) 0%nat (delete (inl i) t))%nat
    by lia.
  apply IH. intros j c' Hj.
  rewrite lookup_delete_ne by (intros [= ?]; lia).
  replace (i + 1 + Z.of_nat j) with (i + Z.of_nat (S j)) by lia.
  apply Hget. exact Hj.
Qed.

Lemma storable_items_not_nil (items : list Reply) :
  forallb (fun c => negb (is_null c) && storable c) items = true ->
  Forall (fun v => is_nil v = false) (map lua_of_reply items)
  /\ forallb storable items = true.
Proof.
  intros Hst. rewrite forallb_forall in Hst. split.
  - apply Forall_forall. intros v Hv.
    apply list_elem_of_In, in_map_iff in Hv as [c [<- Hc]].
    specialize (Hst c Hc). apply andb_true_iff in Hst as [Hn _].
    rewrite lua_of_reply_nil. destruct (is_null c); [discriminate|reflexivity].
  - apply forallb_forall. intros c Hc. specialize (Hst c Hc).
    apply andb_true_iff in Hst as [_ Hs]. exact Hs.
Qed.

(** The fuel of [encode_fuel] covers the script value of a storable reply. *)
Lemma encode_weight_fuel (v : Reply) :
  storable v = true -> (encode_weight v <= encode_fuel (lua_of_reply v))%nat.
Proof.
  unfold encode_fuel.
  induction v as [ | value | data | items IH | data | data ] using Reply_forall_ind;
    intros Hst; cbn [encode_weight lua_of_reply value_weight push_status_table push_error_table];
    try lia.
  cbn [storable] in Hst. apply storable_items_not_nil in Hst as [Hnil Hst].
  enough (fold_right (fun c acc => (S (encode_weight c) + acc)%nat) 0%nat items
          <= map_fold (fun _ c acc => (S (value_weight c) + acc)%nat) 0%nat
               (seq_table ∅ 1 (map lua_of_reply items)))%nat by lia.
  apply (items_weight_table items IH _ 1 Hst).
  intros j c Hj. apply seq_table_lookup; [exact Hnil|].
  rewrite list_lookup_fmap, Hj. reflexivity.
Qed.

Lemma decode_fuel_frame (v : Reply) : (reply_weight v <= decode_fuel (frame v))%nat.
Proof. unfold decode_fuel. pose proof (reply_weight_frame v). lia. Qed.

(** ** C1: the codec round trip *)

(** C1 (as amended).  For every reply [v] whose Ints are signed 64-bit
    integers and whose frame is shorter than 2^32 bytes, [decode_reply] on
    the frame of [v] (without [raise_on_error], or when [v] holds no Error)
    yields the script value that stands for [v], with the cursor exactly at
    the length of the frame; and when no array of [v] has a Null item and
    every Int survives the conversion to [lua_Number], encoding that script
    value yields the frame of [v] again. *)
Theorem codec_round_trip (luaL_where : bytes) (number2str : lua_Number -> bytes)
  (v : Reply) :
  int64_reply v = true ->
  blen (frame v) < 2 ^ 32 ->
  (forall raise, raise = false \/ first_error v = None ->
     decode_reply luaL_where (decode_fuel (frame v)) (frame v) 0 raise
     = Ok (lua_of_reply v, blen (frame v)))
  /\ (storable v = true ->
      encode_lua_value number2str (encode_fuel (lua_of_reply v)) (lua_of_reply v) rb_init
      = Ok (frame v)).
Proof.
  intros Hint Hlen. split.
  - intros raise Hraise.
    pose proof (decode_reply_frame luaL_where v raise [] [] (decode_fuel (frame v)) Hint) as H.
    cbn [app] in H. rewrite app_nil_r in H. change (blen []) with 0 in H.
    rewrite H by (try exact Hlen; apply decode_fuel_frame).
    unfold decoded. destruct Hraise as [-> | Hnone].
    + reflexivity.
    + rewrite Hnone. destruct raise; reflexivity.
  - intros Hst.
    apply (encode_lua_of_reply number2str v _ rb_init Hst Hlen).
    apply encode_weight_fuel. exact Hst.
Qed.

Lemma codec_round_trip_witness :
  (forall raise, raise = false \/ first_error sample_reply = None ->
     decode_reply line_1 (decode_fuel (frame sample_reply)) (frame sample_reply) 0 raise
     = Ok (lua_of_reply sample_reply, blen (frame sample_reply)))
  /\ (storable sample_reply = true ->
      encode_lua_value (fun _ => []) (encode_fuel (lua_of_reply sample_reply))
        (lua_of_reply sample_reply) rb_init
      = Ok (frame sample_reply)).
Proof.
  apply (codec_round_trip line_1 (fun _ => []) sample_reply); vm_compute; reflexivity.
Defined.

(** C1 as stated fails: an array keeps no Null item.  The frames of
    [Array [Null]] and of the empty array differ, both decode to the empty
    table with the cursor at the end of the frame, and the empty table
    encodes to the frame of the empty array. *)
Lemma round_trip_drops_null_items :
  decode_reply line_1 (decode_fuel (frame (RArray [RNull]))) (frame (RArray [RNull])) 0 false
  = Ok (LTable ∅, 10)
  /\ decode_reply line_1 (decode_fuel (frame (RArray []))) (frame (RArray [])) 0 false
     = Ok (LTable ∅, 5)
  /\ (forall number2str,
        encode_lua_value number2str (encode_fuel (LTable ∅)) (LTable ∅) rb_init
        = Ok (frame (RArray [])))
  /\ frame (RArray [RNull]) <> frame (RArray []).
Proof.
  repeat split; try (vm_compute; reflexivity).
  vm_compute. discriminate.
Qed.

(** ** C8: the script errors of [decode_reply] *)

Lemma load_error (obj : bytes) (off n : Z) (e : error) :
  load obj off n = Err e -> e = Undefined.
Proof.
  unfold load. destruct (_ && _); [discriminate|]. intros [= <-]. reflexivity.
Qed.

Lemma load8_error (obj : bytes) (off : Z) (e : error) :
  load8 obj off = Err e -> e = Undefined.
Proof.
  unfold load8. destruct (load obj off 1) as [b|e'] eqn:E; cbn [bind].
  - destruct b; [intros [= <-]; reflexivity | discriminate].
  - intros [= <-]. eapply load_error. exact E.
Qed.

Section DecoderErrors.

Variable luaL_where : bytes.

Lemma decode_raises_only (fuel : nat) :
  (forall buf off raise msg,
     decode_reply luaL_where fuel buf off raise = Err (Raised msg) ->
     decoder_message luaL_where buf raise msg)
  /\ (forall buf raise i count t off msg,
        decode_array luaL_where fuel buf raise i count t off = Err (Raised msg) ->
        decoder_message luaL_where buf raise msg).
Proof.
  induction fuel as [ | fuel [IHr IHa] ]; [split; intros; discriminate|].
  split.
  - intros buf off raise msg H. cbn [decode_reply] in H.
    destruct (blen buf <? size_add off 5); [injection H as <-; left; reflexivity|].
    destruct (load8 buf off) as [type|e] eqn:E8; cbn [bind] in H;
      [ | apply load8_error in E8; subst e; discriminate ].
    destruct (load buf (off + 1) 4) as [hdr|e] eqn:E32; cbn [bind] in H;
      [ | apply load_error in E32; subst e; discriminate ].
    repeat match type of H with
           | (if ?c then _ else _) = _ => destruct c
           | bind (load ?b ?o ?n) _ = _ =>
               let s := fresh "s" in let e := fresh "e" in let E := fresh "E" in
               destruct (load b o n) as [s|e] eqn:E; cbn [bind] in H;
               [ | apply load_error in E; subst e; discriminate ]
           end;
      try discriminate;
      try (injection H as <-; left; reflexivity);
      try (injection H as <-; right; left; reflexivity).
    + injection H as <-. right. right. split; [reflexivity|]. eauto.
    + eapply IHa. exact H.
  - intros buf raise i count t off msg H. cbn [decode_array] in H.
    destruct (i <=? count); [|discriminate].
    destruct (decode_reply luaL_where fuel buf off raise) as [[v off']|e] eqn:E.
    + eapply IHa. exact H.
    + injection H as ->. eapply IHr. exact E.
Qed.

Lemma decode_reply_short_header (fuel : nat) (buf : bytes) (off : Z) (raise : bool) :
  0 <= off -> blen buf < off + 5 < 2 ^ 32 ->
  decode_reply luaL_where (S fuel) buf off raise
  = luaL_error luaL_where "ERR reply decoding failed".
Proof.
  intros Hoff Hshort. cbn [decode_reply].
  rewrite size_add_small by plia.
  replace (blen buf <? off + 5) with true by (symmetry; apply Z.ltb_lt; lia).
  reflexivity.
Qed.


End DecoderErrors.



(** ** C4: [call] and [pcall] on the same host reply *)

Lemma frame_not_empty (v : Reply) : exists b rest, frame v = b :: rest.
Proof. destruct v; cbn [frame header app]; eauto. Qed.

Lemma single_field_lookup (k k' : string) (d : bytes) :
  lua_setfield ∅ k (LString d) !! (inr k' : Z + string)
  = if decide (k = k') then Some (LString d) else None.
Proof.
  unfold lua_setfield, lua_rawset. cbn [is_nil].
  rewrite lookup_insert. repeat case_decide; try congruence; apply lookup_empty.
Qed.

Lemma error_table_reply (v : Reply) (d : bytes) :
  lua_of_reply v = push_error_table d <-> v = RError d.
Proof.
  split; [ | intros ->; reflexivity ].
  unfold push_error_table. intros H.
  apply (f_equal (fun x => match x with
                           | LTable m => m !! (inr "err" : Z + string)
                           | _ => None
                           end)) in H.
  rewrite single_field_lookup in H. cbn [decide] in H.
  destruct v as [ | value | data | items | data | data ]; cbn [lua_of_reply] in H;
    try discriminate.
  - rewrite seq_table_lookup_other, lookup_empty in H by (intros; discriminate).
    discriminate.
  - unfold push_error_table in H. rewrite single_field_lookup in H.
    cbn in H. injection H as ->. reflexivity.
Qed.

Section Bridge.

Variable luaL_where : bytes.
Variable number2str : lua_Number -> bytes.
Variables host_call host_pcall : bytes -> PtrLen.

Lemma redis_call_common_frame (args : list LuaValue) (ab : bytes) (v : Reply) (raise : bool) :
  args <> [] ->
  encode_args number2str args = Ok ab ->
  (if raise then host_call ab else host_pcall ab) = Buffer (frame v) ->
  int64_reply v = true ->
  blen (frame v) < 2 ^ 32 ->
  redis_call_common luaL_where number2str host_call host_pcall args raise
  = match (if raise then first_error v else None) with
    | Some d => Err (Raised d)
    | None => Ok (lua_of_reply v)
    end.
Proof.
  intros Hargs Hab Hhost Hint Hlen. unfold redis_call_common.
  replace (Z.of_nat (length args) =? 0) with false
    by (symmetry; apply Z.eqb_neq; destruct args; [congruence | cbn [length]; lia]).
  rewrite Hab, Hhost.
  pose proof (decode_reply_frame luaL_where v raise [] [] (decode_fuel (frame v)) Hint) as H.
  cbn [app] in H. rewrite app_nil_r in H. change (blen []) with 0 in H.
  specialize (H Hlen (decode_fuel_frame v)).
  destruct (frame_not_empty v) as [b [rest E]].
  rewrite E in *. rewrite H. unfold decoded.
  destruct (if raise then first_error v else None); reflexivity.
Qed.

(** C4 (as amended).  Let the host answer a call (whose arguments encode)
    with the frame of a reply [v], shorter than 2^32 bytes and with 64-bit
    Ints, under both imports.  Then [pcall] does not raise and returns the
    script value of [v], which is [{err = bytes}] if and only if [v] is
    [Error bytes]; [call] raises if and only if [v] holds an Error, at the
    top or as an item of an array at any depth, with the bytes of the first
    one as the message, and returns the script value of [v] otherwise; so
    for a reply that holds no Error the two return identical values. *)
Theorem call_pcall_symmetry (args : list LuaValue) (ab : bytes) (v : Reply) :
  args <> [] ->
  encode_args number2str args = Ok ab ->
  host_call ab = Buffer (frame v) ->
  host_pcall ab = Buffer (frame v) ->
  int64_reply v = true ->
  blen (frame v) < 2 ^ 32 ->
  l_redis_pcall luaL_where number2str host_call host_pcall args = Ok (lua_of_reply v)
  /\ (forall d, lua_of_reply v = push_error_table d <-> v = RError d)
  /\ l_redis_call luaL_where number2str host_call host_pcall args
     = match first_error v with
       | Some d => Err (Raised d)
       | None => Ok (lua_of_reply v)
       end
  /\ (forall d, v = RError d ->
        l_redis_call luaL_where number2str host_call host_pcall args = Err (Raised d))
  /\ (first_error v = None ->
        l_redis_call luaL_where number2str host_call host_pcall args
        = l_redis_pcall luaL_where number2str host_call host_pcall args).
Proof.
  intros Hargs Hab Hcall Hpcall Hint Hlen.
  pose proof (redis_call_common_frame args ab v false Hargs Hab Hpcall Hint Hlen) as Hp.
  pose proof (redis_call_common_frame args ab v true Hargs Hab Hcall Hint Hlen) as Hc.
  cbv iota in Hp, Hc. unfold l_redis_pcall, l_redis_call.
  repeat split.
  - exact Hp.
  - apply error_table_reply.
  - apply error_table_reply.
  - exact Hc.
  - intros d ->. rewrite Hc. reflexivity.
  - intros Hnone. rewrite Hc, Hp, Hnone. reflexivity.
Qed.

End Bridge.

Lemma call_pcall_symmetry_witness :
  let host := fun _ : bytes => Buffer (frame sample_reply) in
  l_redis_pcall line_1 (fun _ => []) host host [LString (cstr "GET"); LString (cstr "k")]
  = Ok (lua_of_reply sample_reply)
  /\ l_redis_call line_1 (fun _ => []) host host [LString (cstr "GET"); LString (cstr "k")]
     = Err (Raised (cstr "no such key")).
Proof.
  intros host.
  destruct (call_pcall_symmetry line_1 (fun _ => []) host host
              [LString (cstr "GET"); LString (cstr "k")]
              (write_u32_le 2 ++ write_u32_le 3 ++ cstr "GET" ++ write_u32_le 1 ++ cstr "k")
              sample_reply)
    as [Hp [_ [Hc _]]]; try (vm_compute; reflexivity); [discriminate|].
  split; [exact Hp | exact Hc].
Defined.

(** C4 as stated fails on an Error inside an array: the reply is an Array,
    yet [call] raises the bytes of the item while [pcall] returns the table
    [{ {err = "x"} }]; and [pcall] raises on a frame it cannot decode. *)
Lemma nested_error_raises_in_call :
  let host := fun _ : bytes => Buffer (frame (RArray [RError (cstr "x")])) in
  let bad_host := fun _ : bytes => Buffer ["009"; "000"; "000"; "000"; "000"]%byte in
  l_redis_call line_1 (fun _ => []) host host [LString (cstr "EXEC")] = Err (Raised (cstr "x"))
  /\ l_redis_pcall line_1 (fun _ => []) host host [LString (cstr "EXEC")]
     = Ok (LTable (<[inl 1 := push_error_table (cstr "x")]> ∅))
  /\ l_redis_pcall line_1 (fun _ => []) bad_host bad_host [LString (cstr "PING")]
     = Err (Raised (cstr "user_script:1: ERR unknown reply type")).
Proof.
  repeat split; vm_compute; reflexivity.
Qed.

(** ** C7: the sandbox after [init] and [reset] *)

Lemma getglobal_setglobal (L : lua_State) (name : string) (v : LuaValue) :
  lua_getglobal (lua_setglobal L name v) name = v.
Proof.
  unfold lua_getglobal, lua_setglobal. cbn [globals].
  destruct v; cbn [is_nil]; rewrite ?lookup_delete_eq, ?lookup_insert_eq; reflexivity.
Qed.

Lemma getglobal_setglobal_ne (L : lua_State) (name name' : string) (v : LuaValue) :
  name <> name' ->
  lua_getglobal (lua_setglobal L name v) name' = lua_getglobal L name'.
Proof.
  intros Hne. unfold lua_getglobal, lua_setglobal. cbn [globals].
  destruct (is_nil v); rewrite ?lookup_delete_ne, ?lookup_insert_ne by exact Hne; reflexivity.
Qed.

Lemma getglobal_sethook (L : lua_State) (count : Z) (name : string) :
  lua_getglobal (lua_sethook L count) name = lua_getglobal L name.
Proof. reflexivity. Qed.

Ltac getglobal :=
  repeat first
    [ rewrite getglobal_sethook
    | rewrite getglobal_setglobal
    | rewrite getglobal_setglobal_ne by discriminate ].

Section Sandbox.

Variable base_globals : gmap string LuaValue.
Variables table_lib string_lib math_lib : table.
Variables cjson_lib struct_lib cmsgpack_lib bit_lib : table.

Abbreviation sandboxed L :=
  (open_allowed_libs base_globals table_lib string_lib math_lib
     cjson_lib struct_lib cmsgpack_lib bit_lib L).

Lemma remove_package_entry_removed (L : lua_State) (name : string) :
  lua_getglobal L "package" = LNil -> remove_package_entry L name = L.
Proof. intros H. unfold remove_package_entry. rewrite H. reflexivity. Qed.

Lemma open_allowed_libs_policy (L : lua_State) :
  sandbox_policy math_lib cjson_lib struct_lib cmsgpack_lib bit_lib (sandboxed L).
Proof.
  unfold open_allowed_libs, load_redis_modules, luaLoadLib, disable_non_determinism.
  set (L0 := luaopen_string string_lib (luaopen_table table_lib (luaopen_base base_globals L))).
  unfold luaopen_math, remove_global.
  set (L1 := lua_setglobal _ "loadfile" LNil).
  assert (Hpkg : lua_getglobal L1 "package" = LNil) by (unfold L1; getglobal; reflexivity).
  rewrite !(remove_package_entry_removed L1) by exact Hpkg.
  assert (Hmath : lua_getglobal L1 "math" = LTable math_lib)
    by (unfold L1; getglobal; reflexivity).
  rewrite Hmath.
  unfold luaopen_bit, luaopen_cmsgpack, luaopen_struct, luaopen_cjson, sandbox_policy.
  repeat split; getglobal; try reflexivity; unfold L1; getglobal; reflexivity.
Qed.

Lemma new_interpreter_policy :
  sandbox_policy math_lib cjson_lib struct_lib cmsgpack_lib bit_lib
    (lua_sethook (register_redis_api (sandboxed luaL_newstate)) FUEL_HOOK_STEP).
Proof.
  pose proof (open_allowed_libs_policy luaL_newstate) as H.
  unfold sandbox_policy in *. unfold register_redis_api.
  repeat match goal with
         | H : _ /\ _ |- _ => destruct H
         end.
  repeat split; getglobal; assumption.
Qed.

(** C7.  After every successful [init] and every successful [reset] an
    interpreter exists in which each of the globals [io], [os], [debug],
    [package], [require], [dofile] and [loadfile] is nil, [math] is a table
    whose fields [random] and [randomseed] are nil, and each of the globals
    [cjson], [cmsgpack], [struct] and [bit] is a table; whatever the
    baseline libraries register and whatever the library tables hold. *)
Theorem sandbox_closure (st st' : Statics) (newstate_ok : bool) :
  init base_globals table_lib string_lib math_lib cjson_lib struct_lib cmsgpack_lib bit_lib
    st newstate_ok = (st', 0)
  \/ reset base_globals table_lib string_lib math_lib cjson_lib struct_lib cmsgpack_lib bit_lib
       st newstate_ok = (st', 0) ->
  exists L,
    g_state st' = Some L
    /\ Forall (fun name => lua_getglobal L name = LNil)
         ["io"; "os"; "debug"; "package"; "require"; "dofile"; "loadfile"]%string
    /\ (exists math,
          lua_getglobal L "math" = LTable math
          /\ lua_getfield math "random" = LNil
          /\ lua_getfield math "randomseed" = LNil)
    /\ Forall (fun name => exists t, lua_getglobal L name = LTable t)
         ["cjson"; "cmsgpack"; "struct"; "bit"]%string.
Proof.
  intros Hrun.
  assert (Hst : g_state st'
                = Some (lua_sethook (register_redis_api (sandboxed luaL_newstate)) FUEL_HOOK_STEP)).
  { destruct Hrun as [Hinit | Hreset].
    - unfold init in Hinit. destruct newstate_ok; cbn [negb] in Hinit; [|discriminate].
      injection Hinit as <-. reflexivity.
    - unfold reset in Hreset. destruct (g_state st); [|discriminate].
      destruct newstate_ok; cbn [negb] in Hreset; [|discriminate].
      injection Hreset as <-. reflexivity. }
  eexists. split; [exact Hst|].
  destruct new_interpreter_policy
    as (Hio & Hos & Hdebug & Hpackage & Hrequire & Hdofile & Hloadfile & Hmath
        & Hcjson & Hcmsgpack & Hstruct & Hbit).
  split; [repeat constructor; assumption|].
  split.
  - eexists. split; [exact Hmath|].
    unfold lua_getfield, lua_setfield, lua_rawset, lua_rawget. cbn [is_nil]. split.
    + rewrite lookup_delete_ne by discriminate. rewrite lookup_delete_eq. reflexivity.
    + rewrite lookup_delete_eq. reflexivity.
  - repeat constructor; eexists; eassumption.
Qed.

End Sandbox.

Lemma sandbox_closure_witness :
  exists L,
    g_state started = Some L
    /\ Forall (fun name => lua_getglobal L name = LNil)
         ["io"; "os"; "debug"; "package"; "require"; "dofile"; "loadfile"]%string
    /\ (exists math,
          lua_getglobal L "math" = LTable math
          /\ lua_getfield math "random" = LNil
          /\ lua_getfield math "randomseed" = LNil)
    /\ Forall (fun name => exists t, lua_getglobal L name = LTable t)
         ["cjson"; "cmsgpack"; "struct"; "bit"]%string.
Proof.
  apply (sandbox_closure sample_base ∅ ∅ sample_math ∅ ∅ ∅ ∅ module_start _ true).
  left. reflexivity.
Defined.

(** ** C9: the protocol version kept by [setresp] *)

Section Resp.

Variable luaL_where : bytes.
Variable str2number : bytes -> option lua_Number.
Variable base_globals : gmap string LuaValue.
Variables table_lib string_lib math_lib : table.
Variables cjson_lib struct_lib cmsgpack_lib bit_lib : table.

Abbreviation init' := (init base_globals table_lib string_lib math_lib
                         cjson_lib struct_lib cmsgpack_lib bit_lib).
Abbreviation reset' := (reset base_globals table_lib string_lib math_lib
                          cjson_lib struct_lib cmsgpack_lib bit_lib).

Lemma init_resp_version (st : Statics) (ok : bool) :
  g_resp_version (fst (init' st ok)) = g_resp_version st.
Proof. unfold init. destruct ok; reflexivity. Qed.

Lemma reset_resp_version (st : Statics) (ok : bool) :
  g_resp_version (fst (reset' st ok)) = g_resp_version st.
Proof. unfold reset. destruct (g_state st); [destruct ok|]; reflexivity. Qed.


End Resp.


(** ** The argument frame of [eval_with_args] *)

Lemma byte_of_to_Z (b : byte) : byte_of_Z (byte_to_Z b) = b.
Proof.
  unfold byte_of_Z. pose proof (byte_to_Z_range b) as Hr.
  rewrite Z.mod_small by exact Hr. unfold byte_to_Z. rewrite N2Z.id, Byte.of_to_N.
  reflexivity.
Qed.

Lemma write_read_u32 (b0 b1 b2 b3 : byte) :
  write_u32_le (read_u32_le [b0; b1; b2; b3]) = [b0; b1; b2; b3]
  /\ 0 <= read_u32_le [b0; b1; b2; b3] < 2 ^ 32.
Proof.
  unfold write_u32_le, read_u32_le.
  pose proof (byte_to_Z_range b0). pose proof (byte_to_Z_range b1).
  pose proof (byte_to_Z_range b2). pose proof (byte_to_Z_range b3).
  rewrite (lor_shiftl_const _ _ 8 256) by (try reflexivity; lia).
  rewrite (lor_shiftl_const _ _ 16 65536) by (try reflexivity; lia).
  rewrite (lor_shiftl_const _ _ 24 16777216) by (try reflexivity; lia).
  rewrite !land_255, !Z.shiftr_div_pow2 by lia.
  change (2 ^ 8) with 256. change (2 ^ 16) with 65536. change (2 ^ 24) with 16777216.
  change (2 ^ 32) with 4294967296.
  set (v := byte_to_Z b0 + byte_to_Z b1 * 256 + byte_to_Z b2 * 65536 + byte_to_Z b3 * 16777216).
  assert (H0' : v mod 256 = byte_to_Z b0) by (subst v; Z.div_mod_to_equations; lia).
  assert (H1' : (v / 256) mod 256 = byte_to_Z b1) by (subst v; Z.div_mod_to_equations; lia).
  assert (H2' : (v / 65536) mod 256 = byte_to_Z b2) by (subst v; Z.div_mod_to_equations; lia).
  assert (H3' : (v / 16777216) mod 256 = byte_to_Z b3) by (subst v; Z.div_mod_to_equations; lia).
  rewrite H0', H1', H2', H3', !byte_of_to_Z. split; [reflexivity | subst v; lia].
Qed.

Lemma load_inv (obj : bytes) (off n : Z) (x : bytes) :
  load obj off n = Ok x ->
  0 <= off /\ 0 <= n /\ off + n <= blen obj /\ blen x = n
  /\ skipn (Z.to_nat off) obj = x ++ skipn (Z.to_nat (off + n)) obj.
Proof.
  unfold load. destruct (_ && _) eqn:E; [|discriminate].
  apply andb_true_iff in E as [E E3]. apply andb_true_iff in E as [E1 E2].
  apply Z.leb_le in E1, E2, E3. intros [= <-].
  repeat split; try assumption.
  - unfold blen in *. rewrite length_take, length_drop. lia.
  - replace (Z.to_nat (off + n)) with (Z.to_nat off + Z.to_nat n)%nat by lia.
    rewrite <- drop_drop. symmetry. apply take_drop.
Qed.

Lemma read_write_u32_exact (v : Z) : read_u32_le (write_u32_le v) = u32 v.
Proof. rewrite <- (app_nil_r (write_u32_le v)). apply read_write_u32. Qed.

Lemma set_keys_argv_loop_frames (keys_count : Z) (items : list bytes) :
  0 <= keys_count ->
  forall pre post i keys argv,
    blen (pre ++ concat (map item_frame items) ++ post) < 2 ^ 32 ->
    0 <= i ->
    i + Z.of_nat (length items) < 2 ^ 31 ->
    set_keys_argv_loop (length items) (pre ++ concat (map item_frame items) ++ post)
      i keys_count (blen pre) keys argv
    = Ok (install_items items i keys_count keys argv).
Proof.
  intros Hkeys.
  induction items as [ | item items IH ]; intros pre post i keys argv Hlen Hi Hmax;
    cbn [length set_keys_argv_loop install_items map concat]; [reflexivity|].
  cbn [map concat length] in Hlen, Hmax.
  change (item_frame item) with (write_u32_le (u32 (blen item)) ++ item) in *.
  rewrite <- !app_assoc. rewrite <- !app_assoc in Hlen.
  pose proof (blen_nonneg pre). pose proof (blen_nonneg item). pose proof (blen_nonneg post).
  pose proof (blen_nonneg (concat (map item_frame items))).
  assert (Hb : blen (pre ++ write_u32_le (u32 (blen item)) ++ item
                     ++ concat (map item_frame items) ++ post)
               = blen pre + 4 + blen item + blen (concat (map item_frame items)) + blen post).
  { rewrite !blen_app. change (blen (write_u32_le _)) with 4. lia. }
  rewrite Hb in *.
  rewrite (u32_small (blen item)) by plia.
  rewrite size_add_small by plia.
  replace (_ <? blen pre + 4) with false by (symmetry; apply Z.ltb_ge; lia).
  change 4 with (blen (write_u32_le (blen item))) at 1. rewrite load_at. cbn [bind].
  rewrite !read_write_u32_exact, (u32_small (blen item)) by plia.
  rewrite size_add_small by plia.
  replace (_ <? blen pre + 4 + blen item) with false by (symmetry; apply Z.ltb_ge; lia).
  replace (blen pre + 4) with (blen (pre ++ write_u32_le (blen item)))
    by (rewrite blen_app; reflexivity).
  rewrite (app_assoc pre), load_at. cbn [bind].
  rewrite to_int32_small, (u32_small (i + 1)) by plia.
  rewrite (app_assoc (pre ++ _)), <- blen_app.
  destruct (Z.ltb_spec i keys_count).
  - rewrite IH; [reflexivity | | lia | lia].
    rewrite <- !app_assoc, !blen_app. change (blen (write_u32_le _)) with 4. lia.
  - rewrite u32_small, to_int32_small by plia.
    rewrite IH; [reflexivity | | lia | lia].
    rewrite <- !app_assoc, !blen_app. change (blen (write_u32_le _)) with 4. lia.
Qed.

Lemma install_items_split (keys_count : Z) (items : list bytes) :
  forall i keys argv,
    install_items items i keys_count keys argv
    = (seq_table keys (i + 1) (map LString (firstn (Z.to_nat (keys_count - i)) items)),
       seq_table argv (Z.max 0 (i - keys_count) + 1)
         (map LString (skipn (Z.to_nat (keys_count - i)) items))).
Proof.
  induction items as [ | item items IH ]; intros i keys argv; cbn [install_items].
  - rewrite firstn_nil, skipn_nil. reflexivity.
  - destruct (Z.ltb_spec i keys_count) as [Hlt|Hge]; rewrite IH.
    + replace (Z.to_nat (keys_count - i)) with (S (Z.to_nat (keys_count - (i + 1)))) by lia.
      cbn [firstn skipn map seq_table].
      replace (Z.max 0 (i + 1 - keys_count)) with 0 by lia.
      replace (Z.max 0 (i - keys_count)) with 0 by lia. reflexivity.
    + replace (Z.to_nat (keys_count - i)) with 0%nat by lia.
      replace (Z.to_nat (keys_count - (i + 1))) with 0%nat by lia.
      cbn [firstn skipn map seq_table].
      replace (Z.max 0 (i - keys_count) + 1) with (i - keys_count + 1) by lia.
      replace (Z.max 0 (i + 1 - keys_count) + 1) with (i - keys_count + 1 + 1) by lia.
      reflexivity.
Qed.

Lemma arg_frame_items_bound (items : list bytes) :
  4 * Z.of_nat (length items) <= blen (concat (map item_frame items)).
Proof.
  induction items as [ | item items IH ]; cbn [map concat length].
  - unfold blen. cbn. lia.
  - unfold item_frame at 1. rewrite !blen_app. change (blen (write_u32_le _)) with 4.
    pose proof (blen_nonneg item). lia.
Qed.

(** A well-formed frame with enough items is installed. *)
Lemma set_keys_argv_frame (L : lua_State) (items : list bytes) (rest : bytes) (keys_count : Z) :
  blen (arg_frame items ++ rest) < 2 ^ 32 ->
  0 <= keys_count <= Z.of_nat (length items) ->
  set_keys_argv L (arg_frame items ++ rest) keys_count
  = Ok (lua_setglobal (lua_setglobal L "ARGV" (LTable (argv_table items keys_count)))
          "KEYS" (LTable (keys_table items keys_count))).
Proof.
  intros Hlen Hkeys. unfold set_keys_argv, arg_frame in *. rewrite <- app_assoc in *.
  pose proof (arg_frame_items_bound items) as Hitems.
  pose proof (blen_nonneg rest).
  assert (Hb : blen (write_u32_le (u32 (Z.of_nat (length items)))
                     ++ concat (map item_frame items) ++ rest)
               = 4 + blen (concat (map item_frame items)) + blen rest).
  { rewrite !blen_app. change (blen (write_u32_le _)) with 4. lia. }
  rewrite Hb in *.
  replace (_ <? 4) with false by (symmetry; apply Z.ltb_ge; lia).
  change 4 with (blen (write_u32_le (u32 (Z.of_nat (length items))))) at 1.
  rewrite load_prefix. cbn [bind].
  rewrite read_write_u32_exact, !(u32_small (Z.of_nat (length items))) by plia.
  replace (Z.of_nat (length items) <? keys_count) with false
    by (symmetry; apply Z.ltb_ge; lia).
  rewrite Nat2Z.id.
  pose proof (set_keys_argv_loop_frames keys_count items (proj1 Hkeys)
                (write_u32_le (Z.of_nat (length items))) rest 0 ∅ ∅) as Hloop.
  change (blen (write_u32_le (Z.of_nat (length items)))) with 4 in Hloop.
  rewrite Hloop; [ | rewrite !blen_app; change (blen (write_u32_le _)) with 4; lia | lia | plia ].
  cbn [bind]. rewrite install_items_split. cbn [fst snd].
  replace (keys_count - 0) with keys_count by lia.
  replace (Z.max 0 (0 - keys_count) + 1) with 1 by lia.
  reflexivity.
Qed.

Lemma four_bytes (hdr : bytes) :
  blen hdr = 4 -> exists b0 b1 b2 b3, hdr = [b0; b1; b2; b3].
Proof.
  unfold blen. intros H.
  destruct hdr as [ | b0 [ | b1 [ | b2 [ | b3 [ | b4 hdr ] ] ] ] ]; cbn [length] in H; try lia.
  eauto.
Qed.

(** What the loop of [set_keys_argv] has read when it succeeds. *)
Lemma set_keys_argv_loop_inv (keys_count : Z) (todo : nat) :
  forall buf i off keys argv r,
    0 <= off ->
    blen buf < 2 ^ 32 ->
    set_keys_argv_loop todo buf i keys_count off keys argv = Ok r ->
    exists items rest,
      length items = todo
      /\ skipn (Z.to_nat off) buf = concat (map item_frame items) ++ rest.
Proof.
  induction todo as [ | todo IH ]; intros buf i off keys argv r Hoff Hlen Hrun.
  - exists [], (skipn (Z.to_nat off) buf). split; reflexivity.
  - cbn [set_keys_argv_loop] in Hrun.
    destruct (blen buf <? size_add off 4); [discriminate|].
    destruct (load buf off 4) as [hdr|e] eqn:Ehdr; cbn [bind] in Hrun; [|discriminate].
    apply load_inv in Ehdr as (_ & _ & Hend4 & Hhdr & Hskip4).
    rewrite (size_add_small off 4) in Hrun by plia.
    destruct (blen buf <? size_add (off + 4) (read_u32_le hdr)); [discriminate|].
    destruct (load buf (off + 4) (read_u32_le hdr)) as [item|e] eqn:Eitem;
      cbn [bind] in Hrun; [|discriminate].
    apply load_inv in Eitem as (_ & Hlen0 & Hend & Hitem & Hskip).
    rewrite (size_add_small (off + 4) (read_u32_le hdr)) in Hrun by plia.
    apply IH in Hrun as (items & rest & Hcount & Hrest); [ | lia | exact Hlen ].
    exists (item :: items), rest. split; [cbn [length]; lia|].
    cbn [map concat]. unfold item_frame at 1.
    destruct (four_bytes hdr Hhdr) as (b0 & b1 & b2 & b3 & ->).
    destruct (write_read_u32 b0 b1 b2 b3) as [Hwrite Hrange].
    rewrite Hitem, u32_small, Hwrite by exact Hrange.
    rewrite Hskip4, Hskip, Hrest, <- !app_assoc. reflexivity.
Qed.

Lemma set_keys_argv_inv (L L' : lua_State) (args : bytes) (keys_count : Z) :
  blen args < 2 ^ 32 ->
  set_keys_argv L args keys_count = Ok L' ->
  exists items rest,
    args = arg_frame items ++ rest /\ keys_count <= Z.of_nat (length items).
Proof.
  intros Hlen Hrun. unfold set_keys_argv in Hrun.
  destruct (blen args <? 4); [discriminate|].
  destruct (load args 0 4) as [hdr|e] eqn:Ehdr; cbn [bind] in Hrun; [|discriminate].
  apply load_inv in Ehdr as (_ & _ & _ & Hhdr & Hskip).
  destruct (Z.ltb_spec (read_u32_le hdr) keys_count) as [ | Hcount ]; [discriminate|].
  destruct (set_keys_argv_loop _ args 0 keys_count 4 ∅ ∅) as [r|e] eqn:Eloop;
    cbn [bind] in Hrun; [|discriminate].
  apply set_keys_argv_loop_inv in Eloop as (items & rest & Hitems & Hrest);
    [ | lia | exact Hlen ].
  destruct (four_bytes hdr Hhdr) as (b0 & b1 & b2 & b3 & ->).
  destruct (write_read_u32 b0 b1 b2 b3) as [Hwrite Hrange].
  exists items, rest. split.
  - unfold arg_frame. rewrite Hitems, Z2Nat.id, u32_small, Hwrite by lia.
    change (Z.to_nat 0) with 0%nat in Hskip. rewrite drop_0 in Hskip.
    change (0 + 4) with 4 in Hskip. rewrite Hskip, Hrest, <- app_assoc. reflexivity.
  - rewrite Hitems. lia.
Qed.

Lemma set_keys_argv_loop_error (keys_count : Z) (todo : nat) :
  forall buf i off keys argv e,
    set_keys_argv_loop todo buf i keys_count off keys argv = Err e ->
    e = Failure \/ e = Undefined.
Proof.
  induction todo as [ | todo IH ]; intros buf i off keys argv e Hrun; [discriminate|].
  cbn [set_keys_argv_loop] in Hrun.
  destruct (blen buf <? size_add off 4); [injection Hrun as <-; left; reflexivity|].
  destruct (load buf off 4) as [hdr|e'] eqn:Ehdr; cbn [bind] in Hrun;
    [ | apply load_error in Ehdr; right; congruence ].
  destruct (blen buf <? size_add (size_add off 4) (read_u32_le hdr));
    [injection Hrun as <-; left; reflexivity|].
  destruct (load buf (size_add off 4) (read_u32_le hdr)) as [item|e'] eqn:Eitem;
    cbn [bind] in Hrun; [ | apply load_error in Eitem; right; congruence ].
  eapply IH. exact Hrun.
Qed.

Lemma set_keys_argv_error (L : lua_State) (args : bytes) (keys_count : Z) (e : error) :
  set_keys_argv L args keys_count = Err e -> e = Failure \/ e = Undefined.
Proof.
  unfold set_keys_argv. intros Hrun.
  destruct (blen args <? 4); [injection Hrun as <-; left; reflexivity|].
  destruct (load args 0 4) as [hdr|e'] eqn:Ehdr; cbn [bind] in Hrun;
    [ | apply load_error in Ehdr; right; congruence ].
  destruct (read_u32_le hdr <? keys_count); [injection Hrun as <-; left; reflexivity|].
  destruct (set_keys_argv_loop _ args 0 keys_count 4 ∅ ∅) as [r|e'] eqn:Eloop;
    cbn [bind] in Hrun; [discriminate|].
  injection Hrun as <-. eapply set_keys_argv_loop_error. exact Eloop.
Qed.

Lemma keys_table_lookup (items : list bytes) (keys_count : Z) (j : nat) (item : bytes) :
  items !! j = Some item ->
  Z.of_nat j < keys_count ->
  lua_rawgeti (keys_table items keys_count) (Z.of_nat j + 1) = LString item.
Proof.
  intros Hj Hlt. unfold lua_rawgeti, lua_rawget, keys_table.
  replace (Z.of_nat j + 1) with (1 + Z.of_nat j) by lia.
  rewrite (seq_table_lookup _ ∅ 1 j (LString item)); [reflexivity | | ].
  - apply Forall_forall. intros v Hv.
    apply list_elem_of_In, in_map_iff in Hv as [x [<- _]]. reflexivity.
  - rewrite list_lookup_fmap, lookup_take_lt by lia. rewrite Hj. reflexivity.
Qed.

Lemma argv_table_lookup (items : list bytes) (keys_count : Z) (j : nat) (item : bytes) :
  items !! j = Some item ->
  0 <= keys_count <= Z.of_nat j ->
  lua_rawgeti (argv_table items keys_count) (Z.of_nat j - keys_count + 1) = LString item.
Proof.
  intros Hj Hge. unfold lua_rawgeti, lua_rawget, argv_table.
  replace (Z.of_nat j - keys_count + 1)
    with (1 + Z.of_nat (j - Z.to_nat keys_count)) by lia.
  rewrite (seq_table_lookup _ ∅ 1 _ (LString item)); [reflexivity | | ].
  - apply Forall_forall. intros v Hv.
    apply list_elem_of_In, in_map_iff in Hv as [x [<- _]]. reflexivity.
  - rewrite list_lookup_fmap, lookup_drop.
    replace (Z.to_nat keys_count + (j - Z.to_nat keys_count))%nat with j by lia.
    rewrite Hj. reflexivity.
Qed.

Lemma strings_objlen (items : list bytes) :
  lua_objlen (seq_table ∅ 1 (map LString items)) = Z.of_nat (length items).
Proof.
  rewrite seq_table_objlen, length_map; [reflexivity|].
  apply Forall_forall. intros v Hv.
  apply list_elem_of_In, in_map_iff in Hv as [x [<- _]]. reflexivity.
Qed.

Section EntryPoints.

Variable luaL_where : bytes.
Variable number2str : lua_Number -> bytes.
Variable loadbuffer : bytes -> Loaded.

Abbreviation eval_with_args' := (eval_with_args luaL_where number2str loadbuffer).
Abbreviation load_and_run' := (load_and_run luaL_where number2str loadbuffer).

Lemma eval_with_args_parses (st : Statics) (L : lua_State) (script args : bytes)
  (keys_count : Z) :
  g_state st = Some L ->
  g_max_arg_bytes st = 0 \/ blen args <= g_max_arg_bytes st ->
  eval_with_args' st script args keys_count
  = match set_keys_argv L args keys_count with
    | Ok L' => load_and_run' (reset_fuel st) L' script
    | Err Failure => invalid_args_reply
    | Err e => Err e
    end.
Proof.
  intros HL Hguard. unfold eval_with_args. rewrite HL.
  change (g_max_arg_bytes (reset_fuel st)) with (g_max_arg_bytes st).
  replace ((0 <? g_max_arg_bytes st) && (g_max_arg_bytes st <? blen args)) with false.
  - destruct (set_keys_argv L args keys_count) as [L'|[ | | | | ]]; reflexivity.
  - symmetry. apply andb_false_iff.
    destruct Hguard as [-> | Hle]; [left; reflexivity | right; apply Z.ltb_ge; exact Hle].
Qed.

End EntryPoints.

(** ** C5 and C10: [eval_with_args] and its argument frame *)

Section ArgumentFrame.

Variable luaL_where : bytes.
Variable number2str : lua_Number -> bytes.
Variable loadbuffer : bytes -> Loaded.


(** C10 (as amended).  On an initialized interpreter, a call of
    [eval_with_args] with [args_len < 4] that passes the [max_arg_bytes]
    check ([max_arg_bytes] is 0, or [args_len] is within it; the all-zero
    call always passes) returns the reply of the path that rejects the
    frame, [reply_error("ERR invalid KEYS/ARGV encoding", 31)]: no script
    runs without a count of at least four bytes. *)
Theorem short_args_rejected (st : Statics) (L : lua_State) (script args : bytes)
  (keys_count : Z) :
  g_state st = Some L ->
  g_max_arg_bytes st = 0 \/ blen args <= g_max_arg_bytes st ->
  blen args < 4 ->
  eval_with_args luaL_where number2str loadbuffer st script args keys_count = invalid_args_reply
  /\ invalid_args_reply = reply_error (literal "ERR invalid KEYS/ARGV encoding") 31.
Proof.
  intros HL Hguard Hshort.
  rewrite (eval_with_args_parses luaL_where number2str loadbuffer st L script args
            keys_count HL Hguard).
  unfold set_keys_argv.
  replace (blen args <? 4) with true by (symmetry; apply Z.ltb_lt; exact Hshort).
  split; reflexivity.
Qed.

End ArgumentFrame.



Lemma short_args_rejected_witness :
  eval_with_args no_position no_digits (loads_as (LoadError LNil)) started [] [] 0
  = invalid_args_reply.
Proof.
  apply (short_args_rejected no_position no_digits (loads_as (LoadError LNil)) started
           (lua_sethook (register_redis_api
              (open_allowed_libs sample_base ∅ ∅ sample_math ∅ ∅ ∅ ∅ luaL_newstate))
              FUEL_HOOK_STEP) [] [] 0).
  - reflexivity.
  - left. reflexivity.
  - vm_compute. reflexivity.
Defined.

(** C10 as stated fails under an argument limit: after
    [set_limits(0, 0, 1)] a call with [args_len = 2] is answered by the
    limit check, [reply_error("ERR KEYS/ARGV exceeds configured limit", 40)],
    before the frame is looked at. *)
Lemma short_args_over_limit :
  eval_with_args no_position no_digits (loads_as (LoadError LNil)) (set_limits started 0 0 1) []
    ["000"; "000"]%byte 0
  = reply_error (literal "ERR KEYS/ARGV exceeds configured limit") 40
  /\ eval_with_args no_position no_digits (loads_as (LoadError LNil)) (set_limits started 0 0 1) []
       ["000"; "000"]%byte 0
     <> invalid_args_reply.
Proof.
  split; [vm_compute; reflexivity | vm_compute; discriminate].
Qed.

(** ** Error replies *)

(** [reply_error] on a string of the interpreter and its length. *)
Lemma reply_error_string (msg : bytes) :
  reply_error (msg ++ ["000"%byte]) (blen msg) = error_frame msg.
Proof.
  unfold reply_error, error_frame. rewrite rb_write_header_ok. cbn [bind].
  unfold rb_append. rewrite load_prefix. cbn [bind rb_init app].
  unfold rb_finalize, header. cbn [app]. reflexivity.
Qed.

(** ** C6: fuel *)

Section Fuel.

Variable luaL_where : bytes.
Variable number2str : lua_Number -> bytes.
Variable loadbuffer : bytes -> Loaded.

Lemma fuel_hook_spec (st : Statics) :
  fuel_hook luaL_where st
  = (with_fuel_remaining st (g_fuel_remaining st - FUEL_HOOK_STEP),
     if g_fuel_remaining st - FUEL_HOOK_STEP <=? 0
     then luaL_error luaL_where "Script killed by fuel limit"
     else Ok tt).
Proof.
  unfold fuel_hook. cbn [g_fuel_remaining with_fuel_remaining].
  destruct (_ <=? 0); reflexivity.
Qed.

(** The hook calls that do not raise only count the fuel down. *)
Lemma run_hooks_within (n : nat) :
  forall st,
    FUEL_HOOK_STEP * Z.of_nat n < g_fuel_remaining st ->
    run_hooks luaL_where n st
    = (with_fuel_remaining st (g_fuel_remaining st - FUEL_HOOK_STEP * Z.of_nat n), Ok tt).
Proof.
  unfold FUEL_HOOK_STEP.
  induction n as [ | n IH ]; intros st Hfuel; cbn [run_hooks].
  - replace (g_fuel_remaining st - 1000 * Z.of_nat 0) with (g_fuel_remaining st) by lia.
    destruct st; reflexivity.
  - rewrite fuel_hook_spec. unfold FUEL_HOOK_STEP.
    replace (g_fuel_remaining st - 1000 <=? 0) with false by (symmetry; apply Z.leb_gt; lia).
    rewrite IH by (cbn [g_fuel_remaining with_fuel_remaining]; lia).
    cbn [g_fuel_remaining with_fuel_remaining]. unfold with_fuel_remaining.
    cbn [g_state g_fuel_limit g_max_reply_bytes g_max_arg_bytes g_resp_version].
    do 2 f_equal. lia.
Qed.

(** Enough hook calls raise the fuel error. *)
Lemma run_hooks_exhausts (n : nat) :
  forall st,
    (1 <= n)%nat ->
    g_fuel_remaining st <= FUEL_HOOK_STEP * Z.of_nat n ->
    snd (run_hooks luaL_where n st) = luaL_error luaL_where "Script killed by fuel limit".
Proof.
  unfold FUEL_HOOK_STEP.
  induction n as [ | n IH ]; intros st Hn Hfuel; [lia|].
  cbn [run_hooks]. rewrite fuel_hook_spec. unfold FUEL_HOOK_STEP.
  destruct (Z.leb_spec (g_fuel_remaining st - 1000) 0) as [Hdone | Hmore]; [reflexivity|].
  apply IH; cbn [g_fuel_remaining with_fuel_remaining]; lia.
Qed.

Lemma exhausting_calls_enough (st : Statics) :
  (1 <= exhausting_calls st)%nat
  /\ g_fuel_remaining st <= FUEL_HOOK_STEP * Z.of_nat (exhausting_calls st).
Proof.
  unfold exhausting_calls, FUEL_HOOK_STEP. split; [lia|].
  destruct (Z.le_gt_cases 0 (g_fuel_remaining st)).
  - rewrite Nat2Z.inj_succ, Z2Nat.id by (apply Z.div_pos; lia).
    Z.div_mod_to_equations. lia.
  - lia.
Qed.

(** The hook leaves the reply limit as it is. *)
Lemma hooks_keep_limits (n : nat) :
  forall st, g_max_reply_bytes (fst (run_hooks luaL_where n st)) = g_max_reply_bytes st.
Proof.
  induction n as [ | n IH ]; intros st; cbn [run_hooks]; [reflexivity|].
  rewrite fuel_hook_spec. destruct (_ <=? 0); [reflexivity|].
  rewrite IH. reflexivity.
Qed.

(** The outcome of [lua_pcall] on a chunk the hook stops. *)
Lemma lua_pcall_killed (L : lua_State) (b : Behaviour) (st : Statics) :
  hookcount L = FUEL_HOOK_STEP ->
  b = RunsForever
  \/ (exists n e, b = Ends n e
                  /\ FUEL_HOOK_STEP <= n
                  /\ g_fuel_remaining st <= FUEL_HOOK_STEP * (n / FUEL_HOOK_STEP)) ->
  snd (lua_pcall luaL_where L b st)
  = Ok (Throws (LString (luaL_where ++ cstr "Script killed by fuel limit"))).
Proof.
  intros Hhook Hb. unfold lua_pcall. rewrite Hhook.
  change (FUEL_HOOK_STEP <=? 0) with false. cbv iota.
  destruct Hb as [-> | (n & e & -> & Hn & Hfuel)].
  - destruct (exhausting_calls_enough st) as [H1 H2].
    pose proof (run_hooks_exhausts _ st H1 H2) as Hrun.
    destruct (run_hooks luaL_where (exhausting_calls st) st) as [st' r]. cbn [snd] in Hrun.
    rewrite Hrun. reflexivity.
  - assert (H1 : (1 <= Z.to_nat (n / FUEL_HOOK_STEP))%nat).
    { unfold FUEL_HOOK_STEP in *. Z.div_mod_to_equations. lia. }
    assert (H2 : g_fuel_remaining st
                 <= FUEL_HOOK_STEP * Z.of_nat (Z.to_nat (n / FUEL_HOOK_STEP))).
    { rewrite Z2Nat.id; [exact Hfuel|]. unfold FUEL_HOOK_STEP in *. apply Z.div_pos; lia. }
    pose proof (run_hooks_exhausts _ st H1 H2) as Hrun.
    destruct (run_hooks luaL_where (Z.to_nat (n / FUEL_HOOK_STEP)) st) as [st' r].
    cbn [snd] in Hrun. rewrite Hrun. reflexivity.
Qed.


End Fuel.



(** ** C2: the replies of the failing paths *)

Section FailingPaths.

Variable luaL_where : bytes.
Variable number2str : lua_Number -> bytes.
Variable loadbuffer : bytes -> Loaded.

Abbreviation run_script := (load_and_run luaL_where number2str loadbuffer).

Lemma eval_initialized (st : Statics) (L : lua_State) (script : bytes) :
  g_state st = Some L ->
  eval luaL_where number2str loadbuffer st script
  = run_script (reset_fuel st) (set_empty_keys_argv L) script.
Proof. intros HL. unfold eval. rewrite HL. reflexivity. Qed.


End FailingPaths.



(** ** C3: from script values to reply frames *)

Section ValueMapping.

Variable luaL_where : bytes.
Variable number2str : lua_Number -> bytes.
Variable loadbuffer : bytes -> Loaded.

Abbreviation encode := (encode_lua_value number2str).

Lemma encode_table_array (fuel : nat) (t : table) (rb : bytes) :
  lua_tolstring number2str (lua_getfield t "ok") = None ->
  lua_tolstring number2str (lua_getfield t "err") = None ->
  encode (S (S fuel)) (LTable t) rb
  = encode_items number2str fuel t 1 (lua_objlen t)
      (rb ++ header REPLY_ARRAY (u32 (lua_objlen t))).
Proof.
  intros Hok Herr. cbn [encode_lua_value encode_table].
  assert (Hs : forall v, lua_tolstring number2str v = None -> lua_isstring v = false)
    by (intros v; destruct v; cbn; congruence).
  rewrite (Hs _ Hok), (Hs _ Herr). cbn [negb andb].
  rewrite rb_write_header_ok. reflexivity.
Qed.

(** The loop of [encode_table] over items that encode. *)
Lemma encode_items_frames_of (t : table) (fuel0 : nat) (frames : list bytes) :
  forall i count fuel rb,
    1 <= i ->
    count = i + Z.of_nat (length frames) - 1 ->
    count < 2 ^ 31 ->
    (forall (j : nat) f,
       frames !! j = Some f ->
       forall fuel' rb', (fuel0 <= fuel')%nat ->
                         encode fuel' (lua_rawgeti t (i + Z.of_nat j)) rb' = Ok (rb' ++ f)) ->
    (fuel0 + length frames + 1 <= fuel)%nat ->
    encode_items number2str fuel t i count rb = Ok (rb ++ concat frames).
Proof.
  induction frames as [ | f frames IH ]; intros i count fuel rb Hi Hcount Hmax Hitems Hfuel;
    (destruct fuel as [ | fuel ]; [cbn in Hfuel; lia|]);
    cbn [encode_items length concat] in *.
  - replace (i <=? count) with false by (symmetry; apply Z.leb_gt; lia).
    rewrite app_nil_r. reflexivity.
  - replace (i <=? count) with true by (symmetry; apply Z.leb_le; lia).
    rewrite to_int32_small by plia.
    pose proof (Hitems 0%nat f eq_refl fuel rb) as Hfirst.
    replace (i + Z.of_nat 0) with i in Hfirst by lia.
    rewrite Hfirst by lia. cbn [bind].
    rewrite size_add_small by plia.
    rewrite (IH (i + 1) count fuel (rb ++ f)); try plia.
    + rewrite <- app_assoc. reflexivity.
    + intros j f' Hj fuel' rb' Hfuel'.
      replace (i + 1 + Z.of_nat j) with (i + Z.of_nat (S j)) by lia.
      apply Hitems; assumption.
Qed.


End ValueMapping.



(** * Further properties of the code *)

(** ** Length arguments of the error replies *)

Section DefaultReplies.

Variable luaL_where : bytes.
Variable number2str : lua_Number -> bytes.
Variable loadbuffer : bytes -> Loaded.

(** The four replies built from a default message pass a length one larger
    than the message has characters: a failed load and a failed run whose
    error value is no string, a value of an unsupported type, and an
    argument frame that does not parse.  The payload of each is the message
    followed by the terminating NUL of the literal. *)
Theorem default_replies_carry_terminator (st : Statics) (L : lua_State)
  (script args : bytes) (keys_count : Z) :
  (forall err,
     loadbuffer script = LoadError err ->
     lua_tolstring number2str err = None ->
     load_and_run luaL_where number2str loadbuffer st L script
     = error_frame (literal "ERR script load failed"))
  /\ (forall run st' err,
        loadbuffer script = Chunk run ->
        lua_pcall luaL_where L (run L) st = (st', Ok (Throws err)) ->
        lua_tolstring number2str err = None ->
        load_and_run luaL_where number2str loadbuffer st L script
        = error_frame (literal "ERR script execution failed"))
  /\ (forall run st' stack top,
        loadbuffer script = Chunk run ->
        lua_pcall luaL_where L (run L) st = (st', Ok (Returns (stack ++ [top]))) ->
        encode_lua_value number2str (encode_fuel top) top rb_init = Err Failure ->
        load_and_run luaL_where number2str loadbuffer st L script
        = error_frame (literal "ERR unsupported Lua return type"))
  /\ (g_state st = Some L ->
      g_max_arg_bytes st = 0 \/ blen args <= g_max_arg_bytes st ->
      set_keys_argv L args keys_count = Err Failure ->
      eval_with_args luaL_where number2str loadbuffer st script args keys_count
      = error_frame (literal "ERR invalid KEYS/ARGV encoding"))
  /\ (blen (literal "ERR script load failed") = 23
      /\ blen (literal "ERR script execution failed") = 28
      /\ blen (literal "ERR unsupported Lua return type") = 32
      /\ blen (literal "ERR invalid KEYS/ARGV encoding") = 31).
Proof.
  repeat apply conj; try reflexivity.
  - intros err Hload Hmsg. unfold load_and_run, reply_error_value.
    rewrite Hload, Hmsg. reflexivity.
  - intros run st' err Hload Hrun Hmsg. unfold load_and_run, reply_error_value.
    rewrite Hload, Hrun, Hmsg. reflexivity.
  - intros run st' stack top Hload Hrun Henc. unfold load_and_run.
    rewrite Hload, Hrun, rev_app_distr. cbn [rev app]. rewrite Henc. reflexivity.
  - intros HL Hguard Hfail.
    rewrite (eval_with_args_parses luaL_where number2str loadbuffer st L script args
               keys_count HL Hguard).
    rewrite Hfail. reflexivity.
Qed.

(** When the argument bytes exceed [max_arg_bytes], [eval_with_args] asks
    [reply_error] for 40 bytes of a literal that has 38 characters and a
    NUL: the reply is read one byte past the object. *)
Theorem arg_limit_reply_overreads (st : Statics) (L : lua_State) (script args : bytes)
  (keys_count : Z) :
  g_state st = Some L ->
  0 < g_max_arg_bytes st < blen args ->
  eval_with_args luaL_where number2str loadbuffer st script args keys_count
  = reply_error (literal "ERR KEYS/ARGV exceeds configured limit") 40
  /\ blen (literal "ERR KEYS/ARGV exceeds configured limit") = 39
  /\ reply_error (literal "ERR KEYS/ARGV exceeds configured limit") 40 = Err Undefined.
Proof.
  intros HL [Hpos Hover]. repeat apply conj; [ | reflexivity | reflexivity ].
  unfold eval_with_args. rewrite HL.
  change (g_max_arg_bytes (reset_fuel st)) with (g_max_arg_bytes st).
  replace (0 <? g_max_arg_bytes st) with true by (symmetry; apply Z.ltb_lt; exact Hpos).
  replace (g_max_arg_bytes st <? blen args) with true by (symmetry; apply Z.ltb_lt; exact Hover).
  reflexivity.
Qed.

End DefaultReplies.

Lemma arg_limit_reply_overreads_witness :
  eval_with_args no_position no_digits (loads_as (LoadError LNil)) (set_limits started 0 0 1) []
    ["000"; "000"]%byte 0
  = Err Undefined.
Proof.
  destruct (arg_limit_reply_overreads no_position no_digits (loads_as (LoadError LNil))
              (set_limits started 0 0 1)
              (lua_sethook (register_redis_api
                 (open_allowed_libs sample_base ∅ ∅ sample_math ∅ ∅ ∅ ∅ luaL_newstate))
                 FUEL_HOOK_STEP)
              [] ["000"; "000"]%byte 0) as (Hreply & _ & Hread).
  - reflexivity.
  - vm_compute. split; reflexivity.
  - rewrite Hreply. exact Hread.
Defined.

(** ** Bounds checks in 32-bit arithmetic *)

(** [decode_reply]: the sum [*offset + count_or_len] of the bounds check of
    a Bulk, Status or Error payload is a [size_t].  Whenever it wraps, the
    check passes and the payload is read past the end of the buffer. *)
Theorem decode_reply_length_wraps (luaL_where : bytes) (fuel : nat) (raise : bool)
  (pre rest : bytes) (type c : Z) :
  type = REPLY_BULK \/ type = REPLY_STATUS \/ type = REPLY_ERROR ->
  blen (pre ++ header type c ++ rest) < 2 ^ 32 ->
  2 ^ 32 <= blen pre + 5 + u32 c ->
  size_add (blen pre + 5) (u32 c) <= blen (pre ++ header type c ++ rest)
  /\ decode_reply luaL_where (S fuel) (pre ++ header type c ++ rest) (blen pre) raise
     = Err Undefined.
Proof.
  intros Hkind Hlen Hwrap.
  pose proof (blen_nonneg pre). pose proof (blen_nonneg rest).
  assert (Hb : blen (pre ++ header type c ++ rest) = blen pre + 5 + blen rest)
    by (rewrite !blen_app, header_length; lia).
  assert (Hc : 0 <= u32 c < 2 ^ 32) by (apply Z.mod_pos_bound; lia).
  assert (Hsum : size_add (blen pre + 5) (u32 c) = blen pre + 5 + u32 c - 2 ^ 32).
  { unfold size_add, SIZE_BITS. symmetry.
    apply (Z.mod_unique _ _ 1); pow2; lia. }
  split; [rewrite Hsum, Hb; lia|].
  rewrite decode_reply_header
    by (try exact Hlen; unfold REPLY_BULK, REPLY_STATUS, REPLY_ERROR in Hkind; lia).
  unfold decode_payload. rewrite Hsum.
  replace (blen (pre ++ header type c ++ rest) <? blen pre + 5 + u32 c - 2 ^ 32)
    with false by (symmetry; apply Z.ltb_ge; lia).
  rewrite (load_too_far _ (blen pre + 5) (u32 c)) by lia.
  destruct Hkind as [-> | [-> | ->]]; reflexivity.
Qed.

Lemma decode_reply_length_wraps_witness :
  decode_reply line_1 3 ["002"; "251"; "255"; "255"; "255"]%byte 0 false = Err Undefined.
Proof.
  refine (proj2 (decode_reply_length_wraps line_1 2 false [] [] 2 4294967291 _ _ _)).
  - left. reflexivity.
  - vm_compute. reflexivity.
  - vm_compute. discriminate.
Defined.

(** [set_keys_argv]: the sum [offset + item_len] is a [size_t] too.  When
    the length of the first item makes it wrap, the check passes and the
    item is read past the end of the argument bytes. *)
Theorem set_keys_argv_length_wraps (L : lua_State) (count item_len keys_count : Z)
  (rest : bytes) :
  1 <= count < 2 ^ 32 ->
  keys_count <= count ->
  0 <= item_len < 2 ^ 32 ->
  2 ^ 32 <= 8 + item_len ->
  blen rest < 2 ^ 32 - 8 ->
  set_keys_argv L (write_u32_le count ++ write_u32_le item_len ++ rest) keys_count
  = Err Undefined.
Proof.
  intros Hcount Hkeys Hitem Hwrap Hrest.
  pose proof (blen_nonneg rest).
  set (args := write_u32_le count ++ write_u32_le item_len ++ rest).
  assert (Hb : blen args = 8 + blen rest).
  { unfold args. rewrite !blen_app. change (blen (write_u32_le count)) with 4.
    change (blen (write_u32_le item_len)) with 4. lia. }
  unfold set_keys_argv. rewrite Hb.
  replace (8 + blen rest <? 4) with false by (symmetry; apply Z.ltb_ge; lia).
  unfold args at 1. change 4 with (blen (write_u32_le count)) at 1.
  rewrite load_prefix. cbn [bind].
  rewrite read_write_u32_exact, u32_small by lia.
  replace (count <? keys_count) with false by (symmetry; apply Z.ltb_ge; lia).
  destruct (Z.to_nat count) as [ | todo ] eqn:Etodo; [lia|].
  cbn [set_keys_argv_loop]. rewrite Hb.
  change (size_add 4 4) with 8.
  replace (8 + blen rest <? 8) with false by (symmetry; apply Z.ltb_ge; lia).
  unfold args at 1.
  change 4 with (blen (write_u32_le count)) at 1.
  pose proof (load_at (write_u32_le count) (write_u32_le item_len) rest) as Hitem_len.
  change (blen (write_u32_le item_len)) with 4 in Hitem_len. rewrite Hitem_len.
  cbn [bind]. rewrite read_write_u32_exact, u32_small by lia.
  assert (Hsum : size_add 8 item_len = 8 + item_len - 2 ^ 32).
  { unfold size_add, SIZE_BITS. symmetry. apply (Z.mod_unique _ _ 1); pow2; lia. }
  rewrite Hsum.
  replace (8 + blen rest <? 8 + item_len - 2 ^ 32) with false
    by (symmetry; apply Z.ltb_ge; lia).
  rewrite (load_too_far _ 8 item_len) by (rewrite Hb; lia).
  reflexivity.
Qed.

Lemma set_keys_argv_length_wraps_witness :
  set_keys_argv luaL_newstate
    ["001"; "000"; "000"; "000"; "248"; "255"; "255"; "255"]%byte 0
  = Err Undefined.
Proof.
  apply (set_keys_argv_length_wraps luaL_newstate 1 4294967288 0 []);
    try lia; vm_compute; try reflexivity; discriminate.
Defined.

(** ** The request frame of [call] and [pcall] *)

Section RequestFrame.

Variable luaL_where : bytes.
Variable number2str : lua_Number -> bytes.
Variables host_call host_pcall : bytes -> PtrLen.

Lemma arg_to_bytes_convertible (v : LuaValue) :
  arg_to_bytes number2str v
  = if convertible v then Ok (arg_bytes number2str v) else Err Failure.
Proof. destruct v as [ | [ | ] | | | | | ]; reflexivity. Qed.

Lemma encode_args_loop_items (args : list LuaValue) :
  forall ab,
    forallb convertible args = true ->
    encode_args_loop number2str args ab
    = Ok (ab ++ concat (map item_frame (map (arg_bytes number2str) args))).
Proof.
  induction args as [ | a args IH ]; intros ab Hall; cbn [encode_args_loop map concat].
  - rewrite app_nil_r. reflexivity.
  - cbn [forallb] in Hall. apply andb_true_iff in Hall as [Ha Hargs].
    rewrite arg_to_bytes_convertible, Ha. cbn [bind].
    rewrite IH by exact Hargs. unfold ab_append_string, ab_append, item_frame.
    rewrite <- !app_assoc. reflexivity.
Qed.

Lemma encode_args_loop_rejects (args : list LuaValue) :
  forall ab,
    forallb convertible args = false ->
    encode_args_loop number2str args ab = Err Failure.
Proof.
  induction args as [ | a args IH ]; intros ab Hsome; [discriminate|].
  cbn [forallb encode_args_loop] in *. rewrite arg_to_bytes_convertible.
  destruct (convertible a); cbn [andb bind] in *; [apply IH; exact Hsome | reflexivity].
Qed.

Lemma encode_args_convertible (args : list LuaValue) :
  encode_args number2str args
  = if forallb convertible args
    then Ok (arg_frame (map (arg_bytes number2str) args))
    else Err Failure.
Proof.
  unfold encode_args, ab_init, arg_frame. rewrite length_map.
  destruct (forallb convertible args) eqn:Hall.
  - apply encode_args_loop_items. exact Hall.
  - apply encode_args_loop_rejects. exact Hall.
Qed.

(** [encode_args] lays the arguments out as the item count followed by each
    argument behind its 32-bit length: a string as its bytes, a number in
    its string form, true as "1" and false as "0".  It fails as soon as one
    argument is anything else (nil, a table, a function).  The frame of [n]
    arguments has 4 + 4 n bytes at least. *)
Theorem encode_args_frame (args : list LuaValue) :
  encode_args number2str args
  = (if forallb convertible args
     then Ok (arg_frame (map (arg_bytes number2str) args))
     else Err Failure)
  /\ (forall ab,
        encode_args number2str args = Ok ab ->
        4 + 4 * Z.of_nat (length args) <= blen ab).
Proof.
  split; [apply encode_args_convertible|].
  intros ab. rewrite encode_args_convertible.
  destruct (forallb convertible args); [|discriminate]. intros [= <-].
  unfold arg_frame. rewrite blen_app. change (blen (write_u32_le _)) with 4.
  pose proof (arg_frame_items_bound (map (arg_bytes number2str) args)) as Hitems.
  rewrite length_map in Hitems. lia.
Qed.

(** The frame [call] sends to the host is an argument frame as
    [eval_with_args] reads it: [set_keys_argv] on the bytes [encode_args]
    produced takes the first [keys_count] arguments as [KEYS] and the others
    as [ARGV], each as the string [arg_to_bytes] made of it. *)
Theorem request_frame_round_trip (L : lua_State) (args : list LuaValue) (ab : bytes)
  (keys_count : Z) :
  encode_args number2str args = Ok ab ->
  blen ab < 2 ^ 32 ->
  0 <= keys_count <= Z.of_nat (length args) ->
  let items := map (arg_bytes number2str) args in
  set_keys_argv L ab keys_count
  = Ok (lua_setglobal (lua_setglobal L "ARGV" (LTable (argv_table items keys_count)))
          "KEYS" (LTable (keys_table items keys_count)))
  /\ lua_objlen (keys_table items keys_count) = keys_count
  /\ lua_objlen (argv_table items keys_count) = Z.of_nat (length args) - keys_count.
Proof.
  intros Henc Hlen Hkeys items. rewrite encode_args_convertible in Henc.
  destruct (forallb convertible args); [|discriminate]. injection Henc as <-.
  fold items in Hlen |- *.
  assert (Hitems : length items = length args) by (unfold items; apply length_map).
  repeat apply conj.
  - rewrite <- (app_nil_r (arg_frame items)). apply set_keys_argv_frame.
    + rewrite app_nil_r. exact Hlen.
    + rewrite Hitems. exact Hkeys.
  - unfold keys_table. rewrite strings_objlen, length_take. lia.
  - unfold argv_table. rewrite strings_objlen, length_drop. lia.
Qed.

(** What [call] and [pcall] raise before any reply is decoded: with no
    argument, with an argument [encode_args] does not accept, and when the
    host hands back no buffer or an empty one.  [pcall] raises these errors
    as [call] does. *)
Theorem bridge_call_rejections (raise : bool) (args : list LuaValue) :
  redis_call_common luaL_where number2str host_call host_pcall [] raise
  = Err (Raised (luaL_where ++ cstr "ERR redis.call requires arguments"))
  /\ (args <> [] ->
      forallb convertible args = false ->
      redis_call_common luaL_where number2str host_call host_pcall args raise
      = Err (Raised (luaL_where ++ cstr "ERR invalid argument to redis.call")))
  /\ (args <> [] ->
      forallb convertible args = true ->
      let reply := (if raise then host_call else host_pcall)
                     (arg_frame (map (arg_bytes number2str) args)) in
      reply = NoBuffer \/ reply = Buffer [] ->
      redis_call_common luaL_where number2str host_call host_pcall args raise
      = Err (Raised (luaL_where ++ cstr "ERR empty reply from host"))).
Proof.
  assert (Hargc : forall l : list LuaValue, l <> [] -> (Z.of_nat (length l) =? 0) = false).
  { intros l Hl. apply Z.eqb_neq. destruct l; [congruence | cbn [length]; lia]. }
  repeat apply conj.
  - reflexivity.
  - intros Hargs Hbad. unfold redis_call_common.
    rewrite (Hargc _ Hargs), encode_args_convertible, Hbad. reflexivity.
  - intros Hargs Hgood reply Hreply. unfold redis_call_common.
    rewrite (Hargc _ Hargs), encode_args_convertible, Hgood.
    subst reply. destruct raise; destruct Hreply as [-> | ->]; reflexivity.
Qed.

End RequestFrame.

Lemma request_frame_round_trip_witness :
  exists L,
    set_keys_argv luaL_newstate
      (write_u32_le 3 ++ item_frame (cstr "SET") ++ item_frame (cstr "k")
       ++ item_frame (cstr "1")) 1
    = Ok L
    /\ lua_getglobal L "KEYS" = LTable (<[inl 1 := LString (cstr "SET")]> ∅).
Proof.
  destruct (request_frame_round_trip no_digits luaL_newstate
              [LString (cstr "SET"); LString (cstr "k"); LBoolean true]
              (write_u32_le 3 ++ item_frame (cstr "SET") ++ item_frame (cstr "k")
               ++ item_frame (cstr "1")) 1) as (Hset & _ & _).
  - vm_compute. reflexivity.
  - vm_compute. reflexivity.
  - vm_compute. split; discriminate.
  - eexists. split; [exact Hset|]. vm_compute. reflexivity.
Defined.

(** ** [error_reply] and [status_reply] *)

Section ReplyConstructors.

Variable luaL_where : bytes.
Variable number2str : lua_Number -> bytes.

(** [error_reply(msg)] and [status_reply(msg)] build the script values that
    stand for the Error and the Status reply [msg], the tables [pcall]
    returns for such replies, and [encode_lua_value] turns them into the
    frames of these replies: a script that returns [error_reply(msg)]
    answers with the Error reply [msg].  A number is taken in its string
    form; any other first argument, or none, is a script error. *)
Theorem reply_constructors (msg : bytes) (fuel : nat) (rb : bytes) :
  l_redis_error_reply luaL_where number2str [LString msg] = Ok (lua_of_reply (RError msg))
  /\ l_redis_status_reply luaL_where number2str [LString msg]
     = Ok (lua_of_reply (RStatus msg))
  /\ (forall r,
        l_redis_error_reply luaL_where number2str [LString msg] = Ok r ->
        encode_lua_value number2str (S (S fuel)) r rb = Ok (rb ++ frame (RError msg)))
  /\ (forall r,
        l_redis_status_reply luaL_where number2str [LString msg] = Ok r ->
        encode_lua_value number2str (S (S fuel)) r rb = Ok (rb ++ frame (RStatus msg)))
  /\ (forall n rest,
        l_redis_error_reply luaL_where number2str (LNumber n :: rest)
        = Ok (push_error_table (number2str n))
        /\ l_redis_status_reply luaL_where number2str (LNumber n :: rest)
           = Ok (push_status_table (number2str n)))
  /\ (forall args,
        lua_tolstring number2str (nth 0 args LNil) = None ->
        exists m,
          l_redis_error_reply luaL_where number2str args = Err (Raised m)
          /\ l_redis_status_reply luaL_where number2str args = Err (Raised m)).
Proof.
  repeat apply conj.
  - reflexivity.
  - reflexivity.
  - intros r [= <-]. unfold push_error_table. cbn [encode_lua_value encode_table].
    unfold lua_getfield, lua_setfield, lua_rawset, lua_rawget. cbn [is_nil].
    rewrite lookup_insert_ne by discriminate. rewrite lookup_empty, lookup_insert_eq.
    cbn [default lua_isstring negb andb lua_tolstring frame].
    rewrite rb_write_header_ok. cbn [bind]. rewrite rb_append_all, <- app_assoc. reflexivity.
  - intros r [= <-]. unfold push_status_table. cbn [encode_lua_value encode_table].
    unfold lua_getfield, lua_setfield, lua_rawset, lua_rawget. cbn [is_nil].
    rewrite lookup_insert_eq.
    cbn [default lua_isstring negb andb lua_tolstring frame].
    rewrite rb_write_header_ok. cbn [bind]. rewrite rb_append_all, <- app_assoc. reflexivity.
  - intros n rest. split; reflexivity.
  - intros args Hnone. eexists.
    unfold l_redis_error_reply, l_redis_status_reply, luaL_checklstring.
    change (1 - 1)%nat with 0%nat. rewrite Hnone. split; reflexivity.
Qed.

End ReplyConstructors.

(** ** The cursor of [decode_reply] *)

Section Cursor.

Variable luaL_where : bytes.

Lemma decode_cursor (buf : bytes) (fuel : nat) :
  blen buf < 2 ^ 32 ->
  (forall off raise v off',
     0 <= off ->
     decode_reply luaL_where fuel buf off raise = Ok (v, off') ->
     off + 5 <= off' <= blen buf)
  /\ (forall raise i count t off v off',
        0 <= off <= blen buf ->
        decode_array luaL_where fuel buf raise i count t off = Ok (v, off') ->
        off <= off' <= blen buf).
Proof.
  intros Hlen.
  induction fuel as [ | fuel [IHreply IHarray] ]; [split; intros; discriminate|].
  split.
  - intros off raise v off' Hoff Hrun. cbn [decode_reply] in Hrun.
    destruct (blen buf <? size_add off 5); [discriminate|].
    unfold load8 in Hrun.
    destruct (load buf off 1) as [b|e] eqn:Eb; cbn [bind] in Hrun; [|discriminate].
    destruct b as [ | x b ]; [discriminate|]. cbn [bind] in Hrun.
    destruct (load buf (off + 1) 4) as [hdr|e] eqn:Ehdr; cbn [bind] in Hrun; [|discriminate].
    apply load_inv in Ehdr as (_ & _ & Hhdr & _).
    assert (H5 : size_add off 5 = off + 5) by (apply size_add_small; lia).
    rewrite H5 in Hrun.
    destruct (byte_to_Z x =? REPLY_NULL); [injection Hrun as _ <-; lia|].
    destruct (byte_to_Z x =? REPLY_INT).
    { destruct (blen buf <? size_add (off + 5) 8); [discriminate|].
      destruct (load buf (off + 5) 8) as [p|e] eqn:Ep; cbn [bind] in Hrun; [|discriminate].
      apply load_inv in Ep as (_ & _ & Hp & _).
      injection Hrun as _ <-. rewrite size_add_small by lia. lia. }
    set (c := read_u32_le hdr) in *.
    assert (Hpayload : forall s, load buf (off + 5) c = Ok s ->
                                 off + 5 <= size_add (off + 5) c <= blen buf).
    { intros s Es. apply load_inv in Es as (_ & Hc & Hs & _).
      rewrite size_add_small by lia. lia. }
    destruct (byte_to_Z x =? REPLY_BULK).
    { destruct (blen buf <? size_add (off + 5) c); [discriminate|].
      destruct (load buf (off + 5) c) as [s|e] eqn:Es; cbn [bind] in Hrun; [|discriminate].
      injection Hrun as _ <-. apply (Hpayload s). reflexivity. }
    destruct (byte_to_Z x =? REPLY_STATUS).
    { destruct (blen buf <? size_add (off + 5) c); [discriminate|].
      destruct (load buf (off + 5) c) as [s|e] eqn:Es; cbn [bind] in Hrun; [|discriminate].
      injection Hrun as _ <-. apply (Hpayload s). reflexivity. }
    destruct (byte_to_Z x =? REPLY_ERROR).
    { destruct (blen buf <? size_add (off + 5) c); [discriminate|].
      destruct (load buf (off + 5) c) as [s|e] eqn:Es; cbn [bind] in Hrun; [|discriminate].
      destruct raise; [discriminate|].
      injection Hrun as _ <-. apply (Hpayload s). reflexivity. }
    destruct (byte_to_Z x =? REPLY_ARRAY); [|discriminate].
    apply IHarray in Hrun; lia.
  - intros raise i count t off v off' Hoff Hrun. cbn [decode_array] in Hrun.
    destruct (i <=? count); [ | injection Hrun as _ <-; lia ].
    destruct (decode_reply luaL_where fuel buf off raise) as [[item off1]|e] eqn:Eitem;
      [|discriminate].
    apply IHreply in Eitem; [|lia].
    apply IHarray in Hrun; lia.
Qed.

(** A decoding that succeeds has moved the cursor over the header at least,
    and not past the end of the buffer: every byte it read lies in the
    buffer. *)
Theorem decode_reply_cursor (buf : bytes) (fuel : nat) (off : Z) (raise : bool)
  (v : LuaValue) (off' : Z) :
  blen buf < 2 ^ 32 ->
  0 <= off ->
  decode_reply luaL_where fuel buf off raise = Ok (v, off') ->
  off + 5 <= off' <= blen buf.
Proof.
  intros Hlen Hoff Hrun.
  exact (proj1 (decode_cursor buf fuel Hlen) off raise v off' Hoff Hrun).
Qed.

(** Frames decode in place.  Of two frames that follow each other in a
    buffer, whatever surrounds them, the first is decoded to its value with
    the cursor at the start of the second, and decoding from there gives the
    value of the second with the cursor behind it. *)
Theorem consecutive_frames_decode (v1 v2 : Reply) (pre post : bytes) :
  int64_reply v1 = true ->
  int64_reply v2 = true ->
  let buf := pre ++ frame v1 ++ frame v2 ++ post in
  blen buf < 2 ^ 32 ->
  decode_reply luaL_where (decode_fuel buf) buf (blen pre) false
  = Ok (lua_of_reply v1, blen pre + blen (frame v1))
  /\ decode_reply luaL_where (decode_fuel buf) buf (blen pre + blen (frame v1)) false
     = Ok (lua_of_reply v2, blen pre + blen (frame v1) + blen (frame v2)).
Proof.
  intros Hint1 Hint2 buf Hlen.
  assert (Hfuel : forall v, (length (frame v) <= length buf)%nat ->
                            (reply_weight v <= decode_fuel buf)%nat).
  { intros v Hv. pose proof (reply_weight_frame v). unfold decode_fuel. lia. }
  split.
  - pose proof (decode_reply_frame luaL_where v1 false pre (frame v2 ++ post)
                  (decode_fuel buf) Hint1 Hlen) as H.
    apply H. apply Hfuel. unfold buf. rewrite !length_app. lia.
  - pose proof (decode_reply_frame luaL_where v2 false (pre ++ frame v1) post
                  (decode_fuel buf) Hint2) as H.
    rewrite <- !app_assoc in H. rewrite (blen_app pre (frame v1)) in H.
    apply H; [exact Hlen|]. apply Hfuel. unfold buf. rewrite !length_app. lia.
Qed.

End Cursor.

Lemma decode_reply_cursor_witness :
  0 + 5 <= 13 <= blen (frame (RInt 42)).
Proof.
  apply (decode_reply_cursor line_1 (frame (RInt 42)) 2 0 false
           (LNumber (lua_Number_of_int 42)) 13).
  - vm_compute. reflexivity.
  - lia.
  - vm_compute. reflexivity.
Defined.

Lemma consecutive_frames_decode_witness :
  decode_reply line_1 14 (frame (RBulk (cstr "a")) ++ frame RNull) 0 false
  = Ok (LString (cstr "a"), 6)
  /\ decode_reply line_1 14 (frame (RBulk (cstr "a")) ++ frame RNull) 6 false
     = Ok (LNil, 11).
Proof.
  pose proof (consecutive_frames_decode line_1 (RBulk (cstr "a")) RNull [] []
                eq_refl eq_refl) as H.
  cbv zeta in H. apply H. vm_compute. reflexivity.
Defined.

(** ** What the entry points return *)

Section Outcomes.

Variable luaL_where : bytes.
Variable number2str : lua_Number -> bytes.
Variable loadbuffer : bytes -> Loaded.

(** The encoder appends at least a header, and fails only on a value of an
    unsupported type, on a number with no 64-bit truncation, or at the
    recursion bound. *)
Lemma encode_outcomes (fuel : nat) :
  (forall v rb,
     match encode_lua_value number2str fuel v rb with
     | Ok rb' => blen rb + 5 <= blen rb'
     | Err e => e = Failure \/ e = Undefined \/ e = OutOfFuel
     end)
  /\ (forall t rb,
        match encode_table number2str fuel t rb with
        | Ok rb' => blen rb + 5 <= blen rb'
        | Err e => e = Failure \/ e = Undefined \/ e = OutOfFuel
        end)
  /\ (forall t i count rb,
        match encode_items number2str fuel t i count rb with
        | Ok rb' => blen rb <= blen rb'
        | Err e => e = Failure \/ e = Undefined \/ e = OutOfFuel
        end).
Proof.
  assert (Hframe : forall (rb payload : bytes) type c,
             blen rb + 5 <= blen ((rb ++ header type c) ++ payload)).
  { intros rb payload type c. rewrite !blen_app, header_length.
    pose proof (blen_nonneg payload). lia. }
  assert (Hheader : forall (rb : bytes) type c, blen rb + 5 <= blen (rb ++ header type c)).
  { intros rb type c. rewrite blen_app, header_length. lia. }
  induction fuel as [ | fuel (IHvalue & IHtable & IHitems) ];
    [repeat split; intros; cbn; auto|].
  repeat apply conj.
  - intros v rb. cbn [encode_lua_value]. destruct v as [ | [ | ] | num | str | t | | ].
    + rewrite rb_write_header_ok. apply Hheader.
    + rewrite rb_write_header_ok. cbn [bind].
      rewrite (rb_append_all _ (write_i64_le 1)). apply Hframe.
    + rewrite rb_write_header_ok. apply Hheader.
    + destruct (int64_of_lua_Number num) as [truncated|]; [|auto].
      destruct (PrimFloat.eqb num (lua_Number_of_int truncated)).
      * rewrite rb_write_header_ok. cbn [bind].
        rewrite (rb_append_all _ (write_i64_le truncated)). apply Hframe.
      * rewrite rb_write_header_ok. cbn [bind]. rewrite rb_append_all. apply Hframe.
    + rewrite rb_write_header_ok. cbn [bind]. rewrite rb_append_all. apply Hframe.
    + apply IHtable.
    + auto.
    + auto.
  - intros t rb. cbn [encode_table].
    destruct (lua_isstring (lua_getfield t "ok")); cbn [negb andb].
    + rewrite rb_write_header_ok. cbn [bind]. rewrite rb_append_all. apply Hframe.
    + destruct (lua_isstring (lua_getfield t "err")).
      * rewrite rb_write_header_ok. cbn [bind]. rewrite rb_append_all. apply Hframe.
      * rewrite rb_write_header_ok. cbn [bind].
        specialize (IHitems t 1 (lua_objlen t) (rb ++ header REPLY_ARRAY (u32 (lua_objlen t)))).
        destruct (encode_items number2str fuel t 1 (lua_objlen t) _); [|exact IHitems].
        specialize (Hheader rb REPLY_ARRAY (u32 (lua_objlen t))). lia.
  - intros t i count rb. cbn [encode_items].
    destruct (i <=? count); [|lia].
    specialize (IHvalue (lua_rawgeti t (to_int32 i)) rb).
    destruct (encode_lua_value number2str fuel _ rb) as [rb1|e]; cbn [bind]; [|exact IHvalue].
    specialize (IHitems t (size_add i 1) count rb1).
    destruct (encode_items number2str fuel t _ count rb1); [lia | exact IHitems].
Qed.

Lemma reply_error_framed (msg : bytes) (n : Z) : framed (reply_error msg n).
Proof.
  unfold reply_error. rewrite rb_write_header_ok. cbn [bind]. unfold rb_append.
  destruct (load msg 0 n) as [d|e] eqn:Ed; cbn [bind framed].
  - unfold rb_init. cbn [app]. unfold header. cbn [app rb_finalize].
    rewrite blen_cons. change (blen (write_u32_le (u32 n) ++ d))
      with (blen (write_u32_le (u32 n) ++ d)). rewrite blen_app.
    change (blen (write_u32_le (u32 n))) with 4. pose proof (blen_nonneg d). lia.
  - left. eapply load_error. exact Ed.
Qed.

Lemma reply_error_value_framed (err : LuaValue) (dflt : string) (n : Z) :
  framed (reply_error_value number2str err dflt n).
Proof. unfold reply_error_value. destruct (lua_tolstring _ err); apply reply_error_framed. Qed.

(** With a count hook installed, [lua_pcall] returns. *)
Lemma lua_pcall_returns (L : lua_State) (b : Behaviour) (st : Statics) :
  0 < hookcount L ->
  exists st' e, lua_pcall luaL_where L b st = (st', Ok e).
Proof.
  intros Hhook. unfold lua_pcall.
  replace (hookcount L <=? 0) with false by (symmetry; apply Z.leb_gt; exact Hhook).
  destruct b as [n e | ].
  - destruct (run_hooks luaL_where _ st) as [st' [ [] | [ msg | | | | ] ]]; eauto.
  - destruct (exhausting_calls_enough luaL_where loadbuffer st) as [H1 H2].
    pose proof (run_hooks_exhausts luaL_where _ st H1 H2) as Hrun.
    destruct (run_hooks luaL_where (exhausting_calls st) st) as [st' r]. cbn [snd] in Hrun.
    rewrite Hrun. unfold luaL_error. eauto.
Qed.

Lemma load_and_run_framed (st : Statics) (L : lua_State) (script : bytes) :
  0 < hookcount L ->
  framed (load_and_run luaL_where number2str loadbuffer st L script).
Proof.
  intros Hhook. unfold load_and_run.
  destruct (loadbuffer script) as [run | err]; [|apply reply_error_value_framed].
  destruct (lua_pcall_returns L (run L) st Hhook) as (st' & e & ->).
  destruct e as [stack | err]; [|apply reply_error_value_framed].
  destruct (rev stack) as [ | top rest ]; [vm_compute; discriminate|].
  pose proof (proj1 (encode_outcomes (encode_fuel top)) top rb_init) as Henc.
  destruct (encode_lua_value number2str (encode_fuel top) top rb_init) as [rb|e].
  - destruct (_ && _); [apply reply_error_framed|].
    change (blen rb_init) with 0 in Henc.
    destruct rb as [ | x rb ]; [unfold blen in Henc; cbn in Henc; lia|].
    cbn [rb_finalize framed]. lia.
  - destruct Henc as [-> | [-> | ->]]; [apply reply_error_framed | left | right]; reflexivity.
Qed.

Lemma set_keys_argv_hookcount (L L' : lua_State) (args : bytes) (keys_count : Z) :
  set_keys_argv L args keys_count = Ok L' -> hookcount L' = hookcount L.
Proof.
  unfold set_keys_argv. destruct (_ <? 4); [discriminate|].
  destruct (load args 0 4); cbn [bind]; [|discriminate].
  destruct (_ <? keys_count); [discriminate|].
  destruct (set_keys_argv_loop _ _ _ _ _ _ _); cbn [bind]; [|discriminate].
  intros [= <-]. reflexivity.
Qed.


Lemma lua_pcall_spared (st : Statics) (L : lua_State) (n : Z) (e : Ending) :
  hookcount L = FUEL_HOOK_STEP ->
  0 <= n < g_fuel_remaining st ->
  lua_pcall luaL_where L (Ends n e) st
  = (with_fuel_remaining st (g_fuel_remaining st - 1000 * (n / 1000)), Ok e).
Proof.
  intros Hhook Hn. unfold lua_pcall. rewrite Hhook.
  change (FUEL_HOOK_STEP <=? 0) with false. cbv iota.
  assert (Hcalls : 0 <= n / 1000 /\ 1000 * (n / 1000) <= n)
    by (split; [apply Z.div_pos; lia | apply Z.mul_div_le; lia]).
  rewrite run_hooks_within; unfold FUEL_HOOK_STEP; rewrite Z2Nat.id by lia; [reflexivity | lia].
Qed.



End Outcomes.



(** ** The life cycle of the interpreter and the limits *)

Section Lifecycle.

Variable luaL_where : bytes.
Variable number2str : lua_Number -> bytes.
Variable loadbuffer : bytes -> Loaded.
Variable base_globals : gmap string LuaValue.
Variables table_lib string_lib math_lib : table.
Variables cjson_lib struct_lib cmsgpack_lib bit_lib : table.

Abbreviation init_ := (init base_globals table_lib string_lib math_lib
                         cjson_lib struct_lib cmsgpack_lib bit_lib).
Abbreviation reset_ := (reset base_globals table_lib string_lib math_lib
                          cjson_lib struct_lib cmsgpack_lib bit_lib).

(** [init] and [reset] build the interpreter anew, with nothing of the old
    one, and leave the three limits as [set_limits] last set them, the fuel
    at hand being the fuel limit again.  On an initialized module [reset]
    is [init]; before any [init] it fails and changes nothing.  When no
    state can be allocated, both leave the module without an interpreter,
    also a [reset] that had one.  [set_limits] touches neither the
    interpreter nor the fuel at hand, and keeps the fuel limit when
    [max_fuel] is 0. *)
Theorem lifecycle (st : Statics) (ok : bool) :
  (g_fuel_limit (fst (init_ st ok)) = g_fuel_limit st
   /\ g_max_reply_bytes (fst (init_ st ok)) = g_max_reply_bytes st
   /\ g_max_arg_bytes (fst (init_ st ok)) = g_max_arg_bytes st)
  /\ (g_fuel_limit (fst (reset_ st ok)) = g_fuel_limit st
      /\ g_max_reply_bytes (fst (reset_ st ok)) = g_max_reply_bytes st
      /\ g_max_arg_bytes (fst (reset_ st ok)) = g_max_arg_bytes st)
  /\ (snd (init_ st true) = 0
      /\ g_fuel_remaining (fst (init_ st true)) = g_fuel_limit st
      /\ (forall other, g_state (fst (init_ st true)) = g_state (fst (init_ other true)))
      /\ exists L, g_state (fst (init_ st true)) = Some L /\ hookcount L = FUEL_HOOK_STEP)
  /\ (snd (init_ st false) = -1 /\ g_state (fst (init_ st false)) = None)
  /\ (g_state st = None -> reset_ st ok = (st, -1))
  /\ (g_state st <> None -> reset_ st true = init_ st true)
  /\ (g_state st <> None ->
      snd (reset_ st false) = -1 /\ g_state (fst (reset_ st false)) = None)
  /\ (forall max_fuel max_reply_bytes max_arg_bytes,
        let st' := set_limits st max_fuel max_reply_bytes max_arg_bytes in
        g_state st' = g_state st
        /\ g_fuel_remaining st' = g_fuel_remaining st
        /\ g_fuel_limit st' = (if 0 <? max_fuel then max_fuel else g_fuel_limit st)
        /\ g_max_reply_bytes st' = max_reply_bytes
        /\ g_max_arg_bytes st' = max_arg_bytes).
Proof.
  repeat apply conj; intros;
    try (unfold init; destruct ok; reflexivity);
    try (unfold reset; destruct (g_state st); [destruct ok|]; reflexivity);
    try reflexivity.
  - eexists. split; reflexivity.
  - unfold reset. rewrite H. reflexivity.
  - unfold reset, init. destruct (g_state st) as [L|]; [|congruence].
    cbn [negb]. destruct st; reflexivity.
  - unfold reset. destruct (g_state st); [split; reflexivity | congruence].
  - repeat split.
Qed.

(** After a successful [init] the global [redis] is a table of eleven
    entries: the seven functions of the API and the four log levels 0 to 3;
    and the count hook is installed with a period of 1000 instructions. *)
Theorem init_installs_api (st : Statics) :
  exists L api,
    g_state (fst (init_ st true)) = Some L
    /\ hookcount L = FUEL_HOOK_STEP
    /\ lua_getglobal L "redis" = LTable api
    /\ size api = 11%nat
    /\ Forall (fun name => lua_getfield api name = LFunction ("l_redis_" ++ name))
         ["call"; "pcall"; "log"; "sha1hex"; "error_reply"; "status_reply"; "setresp"]%string
    /\ Forall (fun level => lua_getfield api (fst level)
                            = LNumber (lua_Number_of_int (snd level)))
         [("LOG_DEBUG", 0); ("LOG_VERBOSE", 1); ("LOG_NOTICE", 2); ("LOG_WARNING", 3)]%string.
Proof.
  eexists. eexists. unfold init. cbn [negb fst].
  split; [reflexivity|]. split; [reflexivity|].
  split; [unfold register_redis_api; rewrite getglobal_sethook, getglobal_setglobal;
          reflexivity|].
  split; [vm_compute; reflexivity|].
  split; repeat constructor.
Qed.

(** [eval] is [eval_with_args] on a frame of no items: the script runs with
    [KEYS] and [ARGV] empty, and bytes behind the count are not looked
    at. *)
Theorem eval_is_eval_with_no_args (st : Statics) (script rest : bytes) :
  g_max_arg_bytes st = 0 \/ 4 + blen rest <= g_max_arg_bytes st ->
  blen rest < 2 ^ 32 - 4 ->
  eval_with_args luaL_where number2str loadbuffer st script (write_u32_le 0 ++ rest) 0
  = eval luaL_where number2str loadbuffer st script.
Proof.
  intros Hguard Hrest.
  assert (Hb : blen (write_u32_le 0 ++ rest) = 4 + blen rest)
    by (rewrite blen_app; reflexivity).
  destruct (g_state st) as [L|] eqn:HL.
  - rewrite (eval_with_args_parses luaL_where number2str loadbuffer st L script _ 0 HL)
      by (rewrite Hb; exact Hguard).
    pose proof (set_keys_argv_frame L [] rest 0) as Hset.
    change (arg_frame []) with (write_u32_le 0) in Hset.
    rewrite Hset by (rewrite ?Hb; cbn [length]; lia).
    unfold eval. rewrite HL. f_equal.
    unfold set_empty_keys_argv, lua_setglobal, argv_table, keys_table.
    cbn [is_nil globals hookcount seq_table map firstn skipn Z.to_nat]. f_equal.
    apply insert_insert_ne. discriminate.
  - unfold eval, eval_with_args. rewrite HL. reflexivity.
Qed.

End Lifecycle.

Lemma eval_is_eval_with_no_args_witness :
  eval_with_args no_position no_digits
    (loads_as (Chunk (fun _ => Ends 3 (Returns [LNumber 42])))) started (cstr "return 42")
    (write_u32_le 0 ++ cstr "ignored") 0
  = eval no_position no_digits
      (loads_as (Chunk (fun _ => Ends 3 (Returns [LNumber 42])))) started (cstr "return 42").
Proof.
  apply (eval_is_eval_with_no_args no_position no_digits
           (loads_as (Chunk (fun _ => Ends 3 (Returns [LNumber 42]))))
           started (cstr "return 42") (cstr "ignored")).
  - left. reflexivity.
  - vm_compute. reflexivity.
Defined.

(** ** The capacity of the reply buffer *)

Lemma doubled_bounds (c : Z) : doubled c -> 256 <= c <= 2 ^ 31.
Proof.
  intros (k & Hk & ->).
  assert (1 <= 2 ^ Z.of_nat k) by (apply (Z.pow_le_mono_r 2 0); lia).
  assert (2 ^ Z.of_nat k <= 2 ^ 23) by (apply Z.pow_le_mono_r; lia).
  change (2 ^ 23) with 8388608 in *. pow2. lia.
Qed.

Lemma doubled_twice (k : nat) :
  256 * 2 ^ Z.of_nat (S k) = 256 * 2 ^ Z.of_nat k * 2.
Proof. rewrite Nat2Z.inj_succ, Z.pow_succ_r by lia. lia. Qed.

(** The loop of [rb_reserve] ends on the first capacity that is enough,
    when no more than 2^31 bytes are needed. *)
Lemma rb_reserve_loop_ends (needed : Z) (d : nat) :
  needed <= 2 ^ 31 ->
  forall (k fuel : nat),
    (k + d = 23)%nat ->
    (d < fuel)%nat ->
    exists k' : nat,
      (k <= k' <= 23)%nat
      /\ Capacity.rb_reserve_loop fuel (256 * 2 ^ Z.of_nat k) needed
         = Ok (256 * 2 ^ Z.of_nat k')
      /\ needed <= 256 * 2 ^ Z.of_nat k'
      /\ (k' = k \/ 256 * 2 ^ Z.of_nat k' < 2 * needed).
Proof.
  intros Hneeded.
  induction d as [ | d IH ]; intros k fuel Hk Hfuel;
    (destruct fuel as [ | fuel ]; [lia|]); cbn [Capacity.rb_reserve_loop];
    (assert (Hk23 : (k <= 23)%nat) by lia);
    pose proof (doubled_bounds (256 * 2 ^ Z.of_nat k)
                  (ex_intro _ k (conj Hk23 eq_refl))) as Hc;
    destruct (Z.ltb_spec (256 * 2 ^ Z.of_nat k) needed) as [Hlt | Hge].
  - assert (Hlast : k = 23%nat) by lia. subst k.
    change (256 * 2 ^ Z.of_nat 23) with (2 ^ 31) in Hlt. lia.
  - exists k. repeat split; lia.
  - assert (Hnext : (256 * 2 ^ Z.of_nat k * 2) mod 2 ^ SIZE_BITS = 256 * 2 ^ Z.of_nat (S k)).
    { rewrite doubled_twice. apply Z.mod_small.
      assert (Hk24 : (S k <= 23)%nat) by lia.
      pose proof (doubled_bounds (256 * 2 ^ Z.of_nat (S k))
                    (ex_intro _ (S k) (conj Hk24 eq_refl))) as Hc'.
      rewrite doubled_twice in Hc'. unfold SIZE_BITS. pow2. lia. }
    rewrite Hnext.
    destruct (IH (S k) fuel ltac:(lia) ltac:(lia)) as (k' & Hk' & Hloop & Henough & Hsmall).
    exists k'. repeat split; try lia; try assumption.
    right. destruct Hsmall as [-> | Hsmall]; [rewrite doubled_twice; lia | exact Hsmall].
  - exists k. repeat split; lia.
Qed.

(** The loop never ends when more than 2^31 bytes are needed: the capacity
    doubles to 2^32, which is 0 in [size_t], and stays there. *)
Lemma rb_reserve_loop_stuck (needed : Z) (fuel : nat) :
  2 ^ 31 < needed ->
  forall c, c = 0 \/ doubled c -> Capacity.rb_reserve_loop fuel c needed = Err OutOfFuel.
Proof.
  intros Hneeded. induction fuel as [ | fuel IH ]; intros c Hc; [reflexivity|].
  cbn [Capacity.rb_reserve_loop].
  assert (Hlt : c < needed).
  { destruct Hc as [-> | Hc]; [pow2; lia | apply doubled_bounds in Hc; lia]. }
  replace (c <? needed) with true by (symmetry; apply Z.ltb_lt; exact Hlt).
  apply IH. destruct Hc as [-> | (k & Hk & ->)]; [left; reflexivity|].
  destruct (Nat.eq_dec k 23%nat) as [-> | Hne].
  - left. reflexivity.
  - right. exists (S k). split; [lia|].
    rewrite doubled_twice. apply Z.mod_small.
    assert (Hk24 : (S k <= 23)%nat) by lia.
    pose proof (doubled_bounds (256 * 2 ^ Z.of_nat (S k))
                  (ex_intro _ (S k) (conj Hk24 eq_refl))) as Hc'.
    rewrite doubled_twice in Hc'. unfold SIZE_BITS. pow2. lia.
Qed.

(** [rb_append] keeps the buffer sound as long as it holds no more than 2^31
    bytes: the bytes are appended, as in the encoder above, they fit the
    capacity, and the capacity is what it was, or 256, or less than twice
    the bytes held. *)
Theorem rb_append_capacity (fuel : nat) (rb : Capacity.ReplyBuffer) (src d : bytes) (n : Z) :
  sound rb ->
  load src 0 n = Ok d ->
  Capacity.len rb + n <= 2 ^ 31 ->
  (24 <= fuel)%nat ->
  exists rb',
    Capacity.rb_append fuel rb src n = Ok rb'
    /\ rb_append (Capacity.data rb) src n = Ok (Capacity.data rb')
    /\ Capacity.data rb' = Capacity.data rb ++ d
    /\ sound rb'
    /\ (Capacity.cap rb' = Capacity.cap rb
        \/ Capacity.cap rb' = 256
        \/ Capacity.cap rb' < 2 * Capacity.len rb').
Proof.
  intros [Hfit Hcap] Hload Hsize Hfuel.
  pose proof (load_inv _ _ _ _ Hload) as (_ & Hn & _ & Hd & _).
  pose proof (blen_nonneg (Capacity.data rb)) as Hlen.
  unfold Capacity.len in *.
  assert (Hneeded : size_add (blen (Capacity.data rb)) n = blen (Capacity.data rb) + n)
    by (apply size_add_small; pow2; lia).
  assert (Hlen' : blen (Capacity.data rb ++ d) = blen (Capacity.data rb) + n)
    by (rewrite blen_app; lia).
  unfold Capacity.rb_append, Capacity.rb_reserve, Capacity.len, rb_append.
  rewrite Hneeded, Hload. cbn [bind].
  destruct (Z.leb_spec (blen (Capacity.data rb) + n) (Capacity.cap rb)) as [Hroom | Hgrow].
  - cbn [bind]. replace (Capacity.cap rb <? blen (Capacity.data rb) + n) with false
      by (symmetry; apply Z.ltb_ge; exact Hroom).
    eexists. repeat split; cbn [Capacity.data Capacity.cap]; try reflexivity.
    + unfold Capacity.len. cbn [Capacity.data]. lia.
    + exact Hcap.
    + left. reflexivity.
  - assert (Hstart : exists k : nat,
               (k <= 23)%nat
               /\ (if Capacity.cap rb =? 0 then 256 else Capacity.cap rb) = 256 * 2 ^ Z.of_nat k
               /\ (Capacity.cap rb = 0 -> k = 0%nat)).
    { destruct Hcap as [-> | (k & Hk & Hc)].
      - exists 0%nat. split; [lia|]. split; reflexivity.
      - exists k. rewrite Hc.
        pose proof (doubled_bounds _ (ex_intro _ k (conj Hk eq_refl))) as Hb.
        replace (256 * 2 ^ Z.of_nat k =? 0) with false by (symmetry; apply Z.eqb_neq; lia).
        split; [exact Hk|]. split; [reflexivity | lia]. }
    destruct Hstart as (k & Hk & Hstart & Hzero). rewrite Hstart.
    destruct (rb_reserve_loop_ends (blen (Capacity.data rb) + n) (23 - k) Hsize k fuel
                ltac:(lia) ltac:(lia)) as (k' & Hk' & -> & Henough & Hsmall).
    cbn [bind Capacity.data Capacity.cap].
    replace (256 * 2 ^ Z.of_nat k' <? blen (Capacity.data rb) + n) with false
      by (symmetry; apply Z.ltb_ge; exact Henough).
    eexists. repeat split; cbn [Capacity.data Capacity.cap]; try reflexivity.
    + unfold Capacity.len. cbn [Capacity.data]. lia.
    + right. exists k'. split; [lia | reflexivity].
    + unfold Capacity.len. cbn [Capacity.data]. rewrite Hlen'.
      destruct Hsmall as [-> | Hsmall]; [|right; right; exact Hsmall].
      destruct (Z.eqb_spec (Capacity.cap rb) 0) as [Hc0 | Hc0].
      * right. left. rewrite (Hzero Hc0). reflexivity.
      * left. symmetry. exact Hstart.
Qed.

(** [rb_reserve] does not return when more than 2^31 bytes are needed: the
    doubling of the capacity wraps to 0 and its loop goes on for ever,
    whatever the number of steps it is given. *)
Theorem rb_reserve_never_returns (fuel : nat) (rb : Capacity.ReplyBuffer) (extra : Z) :
  sound rb ->
  0 <= extra ->
  2 ^ 31 < Capacity.len rb + extra < 2 ^ 32 ->
  Capacity.rb_reserve fuel rb extra = Err OutOfFuel.
Proof.
  intros [Hfit Hcap] Hextra Hsize. unfold Capacity.rb_reserve.
  rewrite size_add_small by (pose proof (blen_nonneg (Capacity.data rb));
                             unfold Capacity.len in *; lia).
  assert (Hbound : Capacity.cap rb <= 2 ^ 31).
  { destruct Hcap as [-> | Hc]; [pow2; lia | apply doubled_bounds in Hc; lia]. }
  replace (Capacity.len rb + extra <=? Capacity.cap rb) with false
    by (symmetry; apply Z.leb_gt; lia).
  rewrite rb_reserve_loop_stuck; [reflexivity | lia | ].
  right. destruct Hcap as [-> | Hc]; [exists 0%nat; split; [lia | reflexivity]|].
  pose proof (doubled_bounds _ Hc).
  replace (Capacity.cap rb =? 0) with false by (symmetry; apply Z.eqb_neq; lia).
  exact Hc.
Qed.

Lemma rb_append_capacity_witness :
  exists rb',
    Capacity.rb_append 24 Capacity.rb_init (header REPLY_NULL 0) 5 = Ok rb'
    /\ Capacity.data rb' = header REPLY_NULL 0
    /\ Capacity.cap rb' = 256.
Proof.
  destruct (rb_append_capacity 24 Capacity.rb_init (header REPLY_NULL 0)
              (header REPLY_NULL 0) 5) as (rb' & Happend & _ & Hdata & _ & _).
  - split; [vm_compute; discriminate | left; reflexivity].
  - reflexivity.
  - vm_compute. discriminate.
  - lia.
  - exists rb'. split; [exact Happend|]. split; [exact Hdata|].
    vm_compute in Happend. injection Happend as <-. reflexivity.
Defined.

Lemma rb_reserve_never_returns_witness :
  Capacity.rb_reserve 100 Capacity.rb_init 2147483649 = Err OutOfFuel.
Proof.
  apply (rb_reserve_never_returns 100 Capacity.rb_init 2147483649).
  - split; [vm_compute; discriminate | left; reflexivity].
  - lia.
  - vm_compute. split; reflexivity.
Defined.

(** ** Tables the encoder takes for arrays *)

Section Arrays.

Variable number2str : lua_Number -> bytes.

Lemma encode_items_stop (t : table) (fuel0 : nat) (e : error) (frames : list bytes) :
  forall i count fuel rb,
    1 <= i ->
    i + Z.of_nat (length frames) <= count ->
    count < 2 ^ 31 ->
    (forall (j : nat) f,
       frames !! j = Some f ->
       forall fuel' rb', (fuel0 <= fuel')%nat ->
                         encode_lua_value number2str fuel' (lua_rawgeti t (i + Z.of_nat j)) rb'
                         = Ok (rb' ++ f)) ->
    (forall fuel' rb', (fuel0 <= fuel')%nat ->
                       encode_lua_value number2str fuel'
                         (lua_rawgeti t (i + Z.of_nat (length frames))) rb'
                       = Err e) ->
    (fuel0 + length frames + 1 <= fuel)%nat ->
    encode_items number2str fuel t i count rb = Err e.
Proof.
  induction frames as [ | f frames IH ]; intros i count fuel rb Hi Hcount Hmax Hitems Hbad Hfuel;
    (destruct fuel as [ | fuel ]; [cbn in Hfuel; lia|]);
    cbn [encode_items length] in *;
    (replace (i <=? count) with true by (symmetry; apply Z.leb_le; lia));
    rewrite to_int32_small by plia.
  - replace (i + Z.of_nat 0) with i in Hbad by lia. rewrite Hbad by lia. reflexivity.
  - pose proof (Hitems 0%nat f eq_refl fuel rb) as Hfirst.
    replace (i + Z.of_nat 0) with i in Hfirst by lia.
    rewrite Hfirst by lia. cbn [bind].
    rewrite size_add_small by plia.
    apply IH; try lia.
    + intros j f' Hj fuel' rb' Hfuel'.
      replace (i + 1 + Z.of_nat j) with (i + Z.of_nat (S j)) by lia.
      apply Hitems; assumption.
    + intros fuel' rb' Hfuel'.
      replace (i + 1 + Z.of_nat (length frames)) with (i + Z.of_nat (S (length frames)))
        by lia.
      apply Hbad; assumption.
Qed.

(** A table that is encoded as an array is encoded item by item, and the
    first item that fails makes the table fail with the error of the item:
    a function anywhere among the items leaves no reply for the items
    before it. *)
Theorem failing_item_fails_table (t : table) (frames : list bytes) (e : error)
  (fuel0 fuel : nat) (rb : bytes) :
  lua_tolstring number2str (lua_getfield t "ok") = None ->
  lua_tolstring number2str (lua_getfield t "err") = None ->
  Z.of_nat (length frames) < lua_objlen t < 2 ^ 31 ->
  (forall (j : nat) f,
     frames !! j = Some f ->
     forall fuel' rb', (fuel0 <= fuel')%nat ->
                       encode_lua_value number2str fuel' (lua_rawgeti t (Z.of_nat j + 1)) rb'
                       = Ok (rb' ++ f)) ->
  (forall fuel' rb', (fuel0 <= fuel')%nat ->
                     encode_lua_value number2str fuel'
                       (lua_rawgeti t (Z.of_nat (length frames) + 1)) rb'
                     = Err e) ->
  (fuel0 + length frames + 3 <= fuel)%nat ->
  encode_lua_value number2str fuel (LTable t) rb = Err e.
Proof.
  intros Hok Herr Hlen Hitems Hbad Hfuel.
  destruct fuel as [ | [ | fuel ] ]; try lia.
  cbn [encode_lua_value encode_table].
  assert (Hs : forall v, lua_tolstring number2str v = None -> lua_isstring v = false)
    by (intros v; destruct v; cbn; congruence).
  rewrite (Hs _ Hok), (Hs _ Herr). cbn [negb andb].
  rewrite rb_write_header_ok. cbn [bind].
  apply (encode_items_stop t fuel0 e frames); try lia.
  - intros j f Hj fuel' rb' Hfuel'. replace (1 + Z.of_nat j) with (Z.of_nat j + 1) by lia.
    apply Hitems; assumption.
  - intros fuel' rb' Hfuel'.
    replace (1 + Z.of_nat (length frames)) with (Z.of_nat (length frames) + 1) by lia.
    apply Hbad; assumption.
Qed.

(** A table with no entry at a positive integer key, and whose fields [ok]
    and [err] are neither strings nor numbers, is encoded as the empty
    array: the entries at its other keys are not sent. *)
Theorem keyed_table_is_empty_array (t : table) (fuel : nat) (rb : bytes) :
  lua_tolstring number2str (lua_getfield t "ok") = None ->
  lua_tolstring number2str (lua_getfield t "err") = None ->
  (forall n, 0 < n -> t !! (inl n : Z + string) = None) ->
  lua_objlen t = 0
  /\ encode_lua_value number2str (S (S (S fuel))) (LTable t) rb
     = Ok (rb ++ header REPLY_ARRAY 0).
Proof.
  intros Hok Herr Hkeys.
  assert (Hlen : lua_objlen t = 0).
  { unfold lua_objlen. destruct (size t); [reflexivity|]. cbn [first_border].
    unfold lua_rawgeti, lua_rawget. rewrite Hkeys by lia. reflexivity. }
  split; [exact Hlen|].
  cbn [encode_lua_value encode_table].
  assert (Hs : forall v, lua_tolstring number2str v = None -> lua_isstring v = false)
    by (intros v; destruct v; cbn; congruence).
  rewrite (Hs _ Hok), (Hs _ Herr), Hlen. cbn [negb andb].
  rewrite rb_write_header_ok. reflexivity.
Qed.

End Arrays.

Lemma failing_item_fails_table_witness :
  encode_lua_value no_digits 5
    (LTable (<[inl 1 := LString (cstr "a")]> (<[inl 2 := LFunction "print"]> ∅))) rb_init
  = Err Failure.
Proof.
  apply (failing_item_fails_table no_digits _ [frame (RBulk (cstr "a"))] Failure 1 5 rb_init).
  - reflexivity.
  - reflexivity.
  - vm_compute. split; reflexivity.
  - intros [ | j ] f Hj fuel' rb' Hfuel'; [|destruct j; discriminate].
    injection Hj as <-. destruct fuel' as [ | fuel' ]; [lia|].
    change (lua_rawgeti _ (Z.of_nat 0 + 1)) with (LString (cstr "a")).
    cbn [encode_lua_value frame]. rewrite rb_write_header_ok. cbn [bind].
    rewrite rb_append_all, <- app_assoc. reflexivity.
  - intros fuel' rb' Hfuel'. destruct fuel' as [ | fuel' ]; [lia|]. reflexivity.
  - cbn [length]. lia.
Defined.

Lemma keyed_table_is_empty_array_witness :
  encode_lua_value no_digits 3 (LTable (<[inr "name" := LString (cstr "x")]> ∅)) rb_init
  = Ok ["003"; "000"; "000"; "000"; "000"]%byte.
Proof.
  refine (proj2 (keyed_table_is_empty_array no_digits
                   (<[inr "name" := LString (cstr "x")]> ∅) 0 rb_init _ _ _)).
  - reflexivity.
  - reflexivity.
  - intros n Hn. rewrite lookup_insert_ne by discriminate. apply lookup_empty.
Defined.

(** ** The little-endian integers of the frames *)

Lemma write_read_i64 (b0 b1 b2 b3 b4 b5 b6 b7 : byte) :
  write_i64_le (read_i64_le [b0; b1; b2; b3; b4; b5; b6; b7])
  = [b0; b1; b2; b3; b4; b5; b6; b7].
Proof.
  unfold write_i64_le, read_i64_le. cbv zeta. rewrite Z.lor_0_l.
  pose proof (byte_to_Z_range b0). pose proof (byte_to_Z_range b1).
  pose proof (byte_to_Z_range b2). pose proof (byte_to_Z_range b3).
  pose proof (byte_to_Z_range b4). pose proof (byte_to_Z_range b5).
  pose proof (byte_to_Z_range b6). pose proof (byte_to_Z_range b7).
  rewrite (lor_shiftl_const _ _ 8 256) by (try reflexivity; lia).
  rewrite (lor_shiftl_const _ _ 16 65536) by (try reflexivity; lia).
  rewrite (lor_shiftl_const _ _ 24 16777216) by (try reflexivity; lia).
  rewrite (lor_shiftl_const _ _ 32 4294967296) by (try reflexivity; lia).
  rewrite (lor_shiftl_const _ _ 40 1099511627776) by (try reflexivity; lia).
  rewrite (lor_shiftl_const _ _ 48 281474976710656) by (try reflexivity; lia).
  rewrite (lor_shiftl_const _ _ 56 72057594037927936) by (try reflexivity; lia).
  set (v := byte_to_Z b0 + byte_to_Z b1 * 256 + byte_to_Z b2 * 65536
            + byte_to_Z b3 * 16777216 + byte_to_Z b4 * 4294967296
            + byte_to_Z b5 * 1099511627776 + byte_to_Z b6 * 281474976710656
            + byte_to_Z b7 * 72057594037927936).
  assert (Hv : 0 <= v < 18446744073709551616) by (subst v; lia).
  assert (Hu : u64 (to_int64 v) = v).
  { unfold u64, to_int64. pow2. rewrite (Z.mod_small v) by lia.
    destruct (v <? 9223372036854775808); [apply Z.mod_small; lia|].
    symmetry. apply (Z.mod_unique _ _ (-1)); lia. }
  rewrite Hu, !land_255, !Z.shiftr_div_pow2 by lia.
  change (2 ^ 8) with 256. change (2 ^ 16) with 65536. change (2 ^ 24) with 16777216.
  change (2 ^ 32) with 4294967296. change (2 ^ 40) with 1099511627776.
  change (2 ^ 48) with 281474976710656. change (2 ^ 56) with 72057594037927936.
  assert (H0' : v mod 256 = byte_to_Z b0) by (subst v; Z.div_mod_to_equations; lia).
  assert (H1' : (v / 256) mod 256 = byte_to_Z b1) by (subst v; Z.div_mod_to_equations; lia).
  assert (H2' : (v / 65536) mod 256 = byte_to_Z b2) by (subst v; Z.div_mod_to_equations; lia).
  assert (H3' : (v / 16777216) mod 256 = byte_to_Z b3)
    by (subst v; Z.div_mod_to_equations; lia).
  assert (H4' : (v / 4294967296) mod 256 = byte_to_Z b4)
    by (subst v; Z.div_mod_to_equations; lia).
  assert (H5' : (v / 1099511627776) mod 256 = byte_to_Z b5)
    by (subst v; Z.div_mod_to_equations; lia).
  assert (H6' : (v / 281474976710656) mod 256 = byte_to_Z b6)
    by (subst v; Z.div_mod_to_equations; lia).
  assert (H7' : (v / 72057594037927936) mod 256 = byte_to_Z b7)
    by (subst v; Z.div_mod_to_equations; lia).
  rewrite H0', H1', H2', H3', H4', H5', H6', H7', !byte_of_to_Z. reflexivity.
Qed.

(** The integers of the frames survive a round trip in both directions:
    reading what was written gives the value back, as an unsigned 32-bit
    and as a signed 64-bit integer, whatever follows in the buffer; and
    writing what was read gives the same four, or eight, bytes. *)
Theorem integer_round_trips :
  (forall v rest, read_u32_le (write_u32_le v ++ rest) = v mod 2 ^ 32)
  /\ (forall v rest, read_i64_le (write_i64_le v ++ rest) = to_int64 v)
  /\ (forall v rest, - 2 ^ 63 <= v < 2 ^ 63 -> read_i64_le (write_i64_le v ++ rest) = v)
  /\ (forall b0 b1 b2 b3 rest,
        write_u32_le (read_u32_le (b0 :: b1 :: b2 :: b3 :: rest)) = [b0; b1; b2; b3])
  /\ (forall b0 b1 b2 b3 b4 b5 b6 b7 rest,
        write_i64_le (read_i64_le (b0 :: b1 :: b2 :: b3 :: b4 :: b5 :: b6 :: b7 :: rest))
        = [b0; b1; b2; b3; b4; b5; b6; b7]).
Proof.
  repeat apply conj.
  - intros v rest. apply read_write_u32.
  - intros v rest. apply read_write_i64.
  - intros v rest Hv. rewrite read_write_i64. apply to_int64_small. exact Hv.
  - intros b0 b1 b2 b3 rest. apply (write_read_u32 b0 b1 b2 b3).
  - intros b0 b1 b2 b3 b4 b5 b6 b7 rest. apply (write_read_i64 b0 b1 b2 b3 b4 b5 b6 b7).
Qed.
